(** * The SOLID platform layer of the reactor-c runtime

    A shallow embedding of [lf_solid_support.c] and [lf_solid_support.h]:
    the busy-wait sleep, the tick-to-nanosecond clock, the critical
    section of the unthreaded runtime, the asynchronous-event flag, the
    [calloc] override and the [printf]-family overrides.

    Layout: the data model and the embedded functions come first
    (modules [CInt], [Double], [Tag], [Printf], [SolidHeader],
    [PlatformHeader], [Heap], [Solid], and the inputs of [DoubleTest] and
    [Scenario]); all lemmas and theorems follow. *)

From stdpp Require Import base option list gmap strings.
From Stdlib Require Import ZArith QArith Qround Qpower Lia Lqa.
From Stdlib Require Import String Ascii DecimalString Floats Uint63.
From Stdlib.Strings Require Import Byte.

Open Scope Z_scope.

(** ** Fixed-width C integers *)

Module CInt.

(** Conversion to an unsigned type of [bits] bits: reduction modulo
    [2 ^ bits] (C11 6.3.1.3p2). *)
Definition to_unsigned (bits z : Z) : Z := z mod 2 ^ bits.

(** The value of the same bit pattern read as a two's complement
    signed integer of [bits] bits. *)
Definition to_signed (bits z : Z) : Z :=
  let u := to_unsigned bits z in
  if u <? 2 ^ (bits - 1) then u else u - 2 ^ bits.

Definition INT64_MIN : Z := - 2 ^ 63.
Definition INT64_MAX : Z := 2 ^ 63 - 1.
Definition UINT32_MAX : Z := 2 ^ 32 - 1.
Definition UINT64_MAX : Z := 2 ^ 64 - 1.

Definition in_int64 (z : Z) : bool := (INT64_MIN <=? z) && (z <=? INT64_MAX).
Definition in_uint32 (z : Z) : bool := (0 <=? z) && (z <=? UINT32_MAX).
Definition in_uint64 (z : Z) : bool := (0 <=? z) && (z <=? UINT64_MAX).

(** Signed 64-bit subtraction; overflow is undefined behaviour. *)
Definition sub_int64 (a b : Z) : option Z :=
  if in_int64 (a - b) then Some (a - b) else None.

(** Unsigned 64-bit addition wraps around. *)
Definition add_uint64 (a b : Z) : Z := to_unsigned 64 (a + b).

(** Signed 64-bit addition; overflow is undefined behaviour. *)
Definition add_int64 (a b : Z) : option Z :=
  if in_int64 (a + b) then Some (a + b) else None.

End CInt.

(** ** IEEE 754 binary64 on the non-negative half-line

    Every [double] the platform layer computes is obtained from unsigned
    integers by conversion, multiplication and division, so only
    non-negative values, [+inf] and NaN arise.  A finite value is kept
    as mantissa and exponent, [DFin m e] standing for [m * 2 ^ e]; each
    operation computes the exact rational result and rounds it to
    nearest, ties to even, at precision 53 with the binary64 exponent
    range. *)

Module Double.

Inductive double : Type :=
| DFin (m e : Z)
| DInf
| DNaN.

Definition prec : Z := 53.
Definition emin : Z := -1074.
Definition emax : Z := 1024.

Definition F2Q (m e : Z) : Q := (inject_Z m * 2 ^ e)%Q.

(** The unit roundoff, [2 ^ -53]. *)
Definition unit_roundoff : Q := (1 # 9007199254740992)%Q.

(** For [0 < x], the exponent [b] with [2 ^ (b - 1) <= x < 2 ^ b]. *)
Definition binade (x : Q) : Z :=
  let k := Z.log2 (Qnum x) - Z.log2 (Zpos (Qden x)) in
  if Qle_bool (2 ^ k) x then k + 1 else k.

(** Rounding to the nearest integer, ties to even. *)
Definition rhe (x : Q) : Z :=
  let f := Qfloor x in
  match (x - inject_Z f ?= 1 # 2)%Q with
  | Lt => f
  | Gt => f + 1
  | Eq => if Z.even f then f else f + 1
  end.

Definition rexp (x : Q) : Z := Z.max (binade x - prec) emin.
Definition rmant (x : Q) : Z := rhe (x / 2 ^ rexp x).

(** The value obtained by rounding the mantissa at the exponent of the
    binade of [x], before the overflow test. *)
Definition rounded (x : Q) : Q := F2Q (rmant x) (rexp x).

Definition round (x : Q) : double :=
  if Qle_bool x 0 then DFin 0 0
  else if Qle_bool (2 ^ emax) (F2Q (rmant x) (rexp x)) then DInf
  else DFin (rmant x) (rexp x).

(** [(double) z] for an unsigned integer [z]. *)
Definition of_Z (z : Z) : double := round (inject_Z z).

Definition mul (a b : double) : double :=
  match a, b with
  | DNaN, _ | _, DNaN => DNaN
  | DInf, DInf => DInf
  | DInf, DFin m _ | DFin m _, DInf => if m =? 0 then DNaN else DInf
  | DFin m1 e1, DFin m2 e2 => round (F2Q m1 e1 * F2Q m2 e2)
  end.

Definition div (a b : double) : double :=
  match a, b with
  | DNaN, _ | _, DNaN => DNaN
  | DInf, DInf => DNaN
  | DInf, DFin _ _ => DInf
  | DFin _ _, DInf => DFin 0 0
  | DFin m1 e1, DFin m2 e2 =>
      if m2 =? 0 then (if m1 =? 0 then DNaN else DInf)
      else round (F2Q m1 e1 / F2Q m2 e2)
  end.

(** Conversion to an integer type with values below [bound]: the
    fractional part is discarded; a value that does not fit, an
    infinity or a NaN is undefined behaviour (C11 6.3.1.4p1). *)
Definition to_Z (bound : Z) (a : double) : option Z :=
  match a with
  | DFin m e =>
      let z := Qfloor (F2Q m e) in
      if z <? bound then Some z else None
  | _ => None
  end.

Definition le (a b : double) : Prop :=
  match a, b with
  | DFin m1 e1, DFin m2 e2 => (F2Q m1 e1 <= F2Q m2 e2)%Q
  | DFin _ _, DInf | DInf, DInf => True
  | _, _ => False
  end.

Definition nonneg (a : double) : Prop :=
  match a with
  | DFin m _ => 0 <= m
  | _ => True
  end.

Definition bounded_above (a : double) (q : Q) : Prop :=
  match a with
  | DFin m e => (F2Q m e <= q)%Q
  | _ => False
  end.

Definition bounded_below (a : double) (q : Q) : Prop :=
  match a with
  | DFin m e => (q <= F2Q m e)%Q
  | DInf => True
  | DNaN => False
  end.

Definition eqb (a b : double) : bool :=
  match a, b with
  | DFin m1 e1, DFin m2 e2 => Qeq_bool (F2Q m1 e1) (F2Q m2 e2)
  | DInf, DInf | DNaN, DNaN => true
  | _, _ => false
  end.

(** Reading a machine float, used to compare this model with the
    primitive binary64 operations. *)
Definition of_SF (f : spec_float) : double :=
  match f with
  | S754_zero _ => DFin 0 0
  | S754_infinity _ => DInf
  | S754_nan => DNaN
  | S754_finite _ m e => DFin (Zpos m) e
  end.

Definition of_prim (f : PrimFloat.float) : double := of_SF (Prim2SF f).

Definition prim_of_Z (z : Z) : PrimFloat.float :=
  PrimFloat.of_uint63 (Uint63.of_Z z).

End Double.

(** Inputs on which the model is compared with the primitive binary64
    operations: pseudo-random pairs of 63-bit integers, and chains of
    products and quotients that run into overflow and underflow. *)

Module DoubleTest.

Import Double.

Fixpoint lcg (n : nat) (x : Z) : list Z :=
  match n with
  | O => []
  | S n' =>
      let y := (x * 6364136223846793005 + 1442695040888963407) mod 2 ^ 63 in
      y :: lcg n' y
  end.

Definition pairs (n : nat) (seed : Z) : list (Z * Z) :=
  let l := lcg (2 * n) seed in combine (take n l) (drop n l).

(** Shorter operands: the first loses [k] bits, the second [63 - k]. *)
Definition narrow (k : Z) (p : Z * Z) : Z * Z :=
  (Z.shiftr (fst p) k, Z.shiftr (snd p) (63 - k) + 1).

Definition agree_conv (p : Z * Z) : bool :=
  eqb (of_Z (fst p)) (of_prim (prim_of_Z (fst p))).

Definition agree_mul (p : Z * Z) : bool :=
  eqb (mul (of_Z (fst p)) (of_Z (snd p)))
      (of_prim (PrimFloat.mul (prim_of_Z (fst p)) (prim_of_Z (snd p)))).

Definition agree_div (p : Z * Z) : bool :=
  eqb (div (of_Z (fst p)) (of_Z (snd p)))
      (of_prim (PrimFloat.div (prim_of_Z (fst p)) (prim_of_Z (snd p)))).

Fixpoint chain (op : double -> double -> double) (n : nat) (x y : double)
    : list double :=
  match n with
  | O => []
  | S n' => let z := op x y in z :: chain op n' z y
  end.

Fixpoint prim_chain (op : PrimFloat.float -> PrimFloat.float -> PrimFloat.float)
    (n : nat) (x y : PrimFloat.float) : list double :=
  match n with
  | O => []
  | S n' => let z := op x y in of_prim z :: prim_chain op n' z y
  end.

Definition all_agree (l1 l2 : list double) : bool :=
  forallb (fun p => eqb (fst p) (snd p)) (combine l1 l2).

End DoubleTest.

(** ** Tags *)

Module Tag.

(** [instant_t] is [int64_t] nanoseconds, [microstep_t] is [uint32_t]. *)
Record tag_t : Type := { time : Z; microstep : Z }.

Definition valid (t : tag_t) : Prop :=
  CInt.INT64_MIN <= time t <= CInt.INT64_MAX /\
  0 <= microstep t <= CInt.UINT32_MAX.

(** Modelled from the spec: the tag comparison function (tag.c of the
    runtime core) is not among the sources.  The spec orders tags by
    comparing the time first, then the microstep; the result is [-1],
    [0] or [1]. *)
Definition lf_tag_compare (a b : tag_t) : Z :=
  if time a <? time b then -1
  else if time b <? time a then 1
  else if microstep a <? microstep b then -1
  else if microstep b <? microstep a then 1
  else 0.

Definition tag_lt (a b : tag_t) : Prop := lf_tag_compare a b = -1.

Definition strict_total_order {A : Type} (R : A -> A -> Prop) : Prop :=
  (forall a, ~ R a a) /\
  (forall a b c, R a b -> R b c -> R a c) /\
  (forall a b, R a b \/ a = b \/ R b a).

End Tag.

(** ** The printf family of the C library

    Modelled from the C standard (C11 7.21.6.1): the C library is not
    part of the sources.  Only the conversions the platform layer and
    its headers use are described: [%d], [%u], [%lld], [%llu], [%s] and
    [%%].  A format with anything else in it is outside this
    description: [parse] gives [None] for it, which says nothing about
    what the C library does with it. *)

Module Printf.

(** A variadic argument, with the type it has after the default
    argument promotions: [ArgInt] is an [int] or [unsigned int]
    (32 bits), [ArgLongLong] a 64-bit integer ([long long],
    [unsigned long long], [int64_t], [uint64_t]), [ArgStr] a pointer to a
    NUL-terminated string. *)
Inductive arg : Type :=
| ArgInt (z : Z)
| ArgStr (s : string)
| ArgLongLong (z : Z).

Inductive directive : Type :=
| Lit (c : ascii)
| ConvInt (signed : bool) (bits : Z)
| ConvStr.

Fixpoint parse (fmt : string) : option (list directive) :=
  match fmt with
  | EmptyString => Some []
  | String "%" rest =>
      match rest with
      | String "%" r => cons (Lit "%") <$> parse r
      | String "d" r => cons (ConvInt true 32) <$> parse r
      | String "u" r => cons (ConvInt false 32) <$> parse r
      | String "s" r => cons ConvStr <$> parse r
      | String "l" (String "l" (String "d" r)) =>
          cons (ConvInt true 64) <$> parse r
      | String "l" (String "l" (String "u" r)) =>
          cons (ConvInt false 64) <$> parse r
      | _ => None
      end
  | String c rest => cons (Lit c) <$> parse rest
  end.

(** The integer argument is read as a value of the type the conversion
    expects: its [bits] bits, signed or unsigned. *)
Definition render_int (signed : bool) (bits z : Z) : string :=
  if signed
  then NilZero.string_of_int (Z.to_int (CInt.to_signed bits z))
  else NilZero.string_of_uint (N.to_uint (Z.to_N (CInt.to_unsigned bits z))).

(** [None] is undefined behaviour: an argument is missing, or it has
    not the type its conversion expects (C11 7.21.6.1 p9).  An integer
    argument is accepted by a conversion of its own width, of either
    signedness; an argument of another width is not. *)
Fixpoint format (ds : list directive) (args : list arg) : option string :=
  match ds with
  | [] => Some EmptyString
  | Lit c :: ds' => String c <$> format ds' args
  | ConvInt signed bits :: ds' =>
      match args with
      | ArgInt z :: args' =>
          if bits =? 32
          then String.append (render_int signed bits z) <$> format ds' args'
          else None
      | ArgLongLong z :: args' =>
          if bits =? 64
          then String.append (render_int signed bits z) <$> format ds' args'
          else None
      | _ => None
      end
  | ConvStr :: ds' =>
      match args with
      | ArgStr s :: args' => String.append s <$> format ds' args'
      | _ => None
      end
  end.

Definition sprintf (fmt : string) (args : list arg) : option string :=
  match parse fmt with
  | Some ds => format ds args
  | None => None
  end.

(** The integer types the conversions of a format expect, in order:
    signedness and width. *)
Definition conversion_type (d : directive) : option (bool * Z) :=
  match d with
  | ConvInt signed bits => Some (signed, bits)
  | _ => None
  end.

Definition conversions (fmt : string) : option (list (bool * Z)) :=
  match parse fmt with
  | Some ds => Some (omap conversion_type ds)
  | None => None
  end.

(** [vsnprintf(buf, n, fmt, ap)]: at most [n - 1] characters of the
    expansion are stored, followed by a NUL; the value returned is the
    length of the whole expansion, whether or not it was truncated
    (C11 7.21.6.12).  [None] when the format is outside the description
    or the arguments do not match it. *)
Definition vsnprintf (buf : list byte) (n : nat) (fmt : string)
    (args : list arg) : option (Z * list byte) :=
  match sprintf fmt args with
  | Some out =>
      let bytes := list_byte_of_string out in
      let kept := take (n - 1)%nat bytes in
      Some (Z.of_nat (List.length bytes),
            match n with
            | O => buf
            | S _ => kept ++ x00 :: drop (S (List.length kept)) buf
            end)
  | None => None
  end.

End Printf.

(** ** lf_solid_support.h *)

Module SolidHeader.

(** Modelled from the C standard: [<inttypes.h>] is not part of the
    sources; [uint32_t] is [unsigned int] on the supported targets. *)
Definition PRIu32 : string := "u".

Definition PRINTF_TIME : string := "%llu".
Definition PRINTF_MICROSTEP : string := String.append "%" PRIu32.
Definition PRINTF_TAG : string :=
  String.append "("
    (String.append PRINTF_TIME
       (String.append ", " (String.append PRINTF_MICROSTEP ")"))).

End SolidHeader.

(** ** The second platform header of the sources

    It carries the same include guard and defines the same macros, with
    a 32-bit conversion for the time. *)

Module PlatformHeader.

Definition PRIu32 : string := SolidHeader.PRIu32.

Definition PRINTF_TIME : string := String.append "%" PRIu32.
Definition PRINTF_MICROSTEP : string := String.append "%" PRIu32.
Definition PRINTF_TAG : string :=
  String.append "("
    (String.append PRINTF_TIME
       (String.append ", " (String.append PRINTF_MICROSTEP ")"))).
Definition _LF_TIMEOUT : Z := 1.

End PlatformHeader.

(** Modelled from the spec: the typedefs of [instant_t] and
    [microstep_t] (tag.h) are not among the sources.  The types of the
    two components of a tag, as a conversion has to expect them: a
    signed 64-bit and an unsigned 32-bit integer. *)
Definition tag_field_types : list (bool * Z) := [(true, 64); (false, 32)].

Definition tag_args (t : Tag.tag_t) : list Printf.arg :=
  [Printf.ArgLongLong (Tag.time t); Printf.ArgInt (Tag.microstep t)].

(** ** Outcomes of a call *)

Inductive ub : Type :=
| OutOfRangeConversion   (* a double that does not fit the integer type *)
| SignedOverflow
| OutOfBoundsAccess
| BadFormat              (* an argument missing or of another type than
                            its conversion expects *)
| BadPointer.

Inductive result (A : Type) : Type :=
| Ok (a : A)
| Undefined (u : ub)      (* undefined behaviour of the C program *)
| AssertionFailed         (* solid_cs_assert *)
| OutOfFuel               (* a busy-wait still running when the fuel ends *)
| NotDescribed.           (* a library call outside what is modelled *)

Arguments Ok {A} a.
Arguments Undefined {A} u.
Arguments AssertionFailed {A}.
Arguments OutOfFuel {A}.
Arguments NotDescribed {A}.

Definition result_bind {A B : Type} (r : result A) (k : A -> result B) : result B :=
  match r with
  | Ok a => k a
  | Undefined u => Undefined u
  | AssertionFailed => AssertionFailed
  | OutOfFuel => OutOfFuel
  | NotDescribed => NotDescribed
  end.

Definition defined {A : Type} (u : ub) (o : option A) : result A :=
  match o with
  | Some a => Ok a
  | None => Undefined u
  end.

Inductive pointer : Type :=
| NULL
| Addr (b : positive).

Definition is_null (p : pointer) : bool :=
  match p with
  | NULL => true
  | Addr _ => false
  end.

(** ** The heap and the [calloc] override *)

Module Heap.

(** Blocks of bytes by block identifier. *)
Abbreviation heap := (gmap positive (list byte)).

(** Modelled from the C standard: [malloc] and [memset] belong to the
    C library.  Whether an allocation fails and what an allocated
    block holds initially is up to the allocator. *)
Record allocator : Type := {
  alloc_fails : heap -> Z -> bool;
  alloc_junk : heap -> Z -> list byte
}.

Definition malloc (A : allocator) (size : Z) (h : heap) : pointer * heap :=
  if alloc_fails A h size then (NULL, h)
  else
    let b := fresh (dom h) in
    (Addr b, <[b := resize (Z.to_nat size) x00 (alloc_junk A h size)]> h).

Definition memset (p : pointer) (c : byte) (n : Z) (h : heap) : result heap :=
  match p with
  | NULL => Undefined BadPointer
  | Addr b =>
      match h !! b with
      | None => Undefined BadPointer
      | Some blk =>
          if n <=? Z.of_nat (List.length blk)
          then Ok (<[b := replicate (Z.to_nat n) c ++ drop (Z.to_nat n) blk]> h)
          else Undefined OutOfBoundsAccess
      end
  end.

(** [size_bits] is the width of [size_t]; the product [n * size] is
    computed in [size_t]. *)
Definition calloc (size_bits : Z) (A : allocator) (n size : Z) (h : heap)
    : result (pointer * heap) :=
  let '(mem, h1) := malloc A (CInt.to_unsigned size_bits (n * size)) h in
  if negb (is_null mem)
  then result_bind (memset mem x00 (CInt.to_unsigned size_bits (n * size)) h1)
         (fun h2 => Ok (mem, h2))
  else Ok (mem, h1).

End Heap.

(** ** lf_solid_support.c, unthreaded configuration *)

Module Solid.

(** The platform as the runtime sees it.  Time is cut into instants,
    one per atomic action of the runtime; [current_tick k] is what
    [SOLID_TIMER_GetCurrentTick] returns at instant [k], and
    [async_notify k] tells whether an asynchronous context (an
    interrupt handler or another thread) calls [lf_notify_of_event] at
    instant [k]. *)
Record platform : Type := {
  current_tick : nat -> Z;
  ticks_per_sec : Z;
  async_notify : nat -> bool
}.

(** The file-scope variables, and the instant reached. *)
Record state : Type := {
  _lf_async_event : bool;
  _nw_nsecPerTick : Double.double;
  _critical_section : nat;
  _critical_section_initialized : bool;
  instant : nat
}.

Definition set_async_event (b : bool) (s : state) : state :=
  {| _lf_async_event := b;
     _nw_nsecPerTick := _nw_nsecPerTick s;
     _critical_section := _critical_section s;
     _critical_section_initialized := _critical_section_initialized s;
     instant := instant s |}.

Definition set_nsecPerTick (d : Double.double) (s : state) : state :=
  {| _lf_async_event := _lf_async_event s;
     _nw_nsecPerTick := d;
     _critical_section := _critical_section s;
     _critical_section_initialized := _critical_section_initialized s;
     instant := instant s |}.

Definition set_critical_section (n : nat) (s : state) : state :=
  {| _lf_async_event := _lf_async_event s;
     _nw_nsecPerTick := _nw_nsecPerTick s;
     _critical_section := n;
     _critical_section_initialized := _critical_section_initialized s;
     instant := instant s |}.

Definition set_critical_section_initialized (b : bool) (s : state) : state :=
  {| _lf_async_event := _lf_async_event s;
     _nw_nsecPerTick := _nw_nsecPerTick s;
     _critical_section := _critical_section s;
     _critical_section_initialized := b;
     instant := instant s |}.

Definition set_instant (k : nat) (s : state) : state :=
  {| _lf_async_event := _lf_async_event s;
     _nw_nsecPerTick := _nw_nsecPerTick s;
     _critical_section := _critical_section s;
     _critical_section_initialized := _critical_section_initialized s;
     instant := k |}.

(** Static storage is zero-initialised. *)
Definition initial_state : state :=
  {| _lf_async_event := false;
     _nw_nsecPerTick := Double.DFin 0 0;
     _critical_section := 0%nat;
     _critical_section_initialized := false;
     instant := 0%nat |}.

(** State and failure monad of the runtime. *)
Definition M (A : Type) : Type := state -> result (A * state).

Definition ret {A : Type} (a : A) : M A := fun s => Ok (a, s).

Definition bind {A B : Type} (m : M A) (k : A -> M B) : M B :=
  fun s =>
    match m s with
    | Ok (a, s') => k a s'
    | Undefined u => Undefined u
    | AssertionFailed => AssertionFailed
    | OutOfFuel => OutOfFuel
    | NotDescribed => NotDescribed
    end.

Declare Scope solid_scope.
Delimit Scope solid_scope with solid.
Notation "x <- m ;; k" := (bind m (fun x => k))
  (at level 100, m at next level, right associativity) : solid_scope.
Notation "m ;; k" := (bind m (fun _ => k))
  (at level 100, right associativity) : solid_scope.
Local Open Scope solid_scope.

Definition get {A : Type} (f : state -> A) : M A := fun s => Ok (f s, s).
Definition modify (f : state -> state) : M unit := fun s => Ok (tt, f s).
Definition lift {A : Type} (u : ub) (o : option A) : M A :=
  fun s => result_bind (defined u o) (fun a => Ok (a, s)).

Definition solid_cs_assert (b : bool) : M unit :=
  fun s => if b then Ok (tt, s) else AssertionFailed.

(** Handle notifications from the runtime of changes to the event
    queue.  If a sleep is in progress, it should be interrupted. *)
Definition lf_notify_of_event : M Z :=
  modify (set_async_event true) ;;
  ret 0.

Section WithPlatform.

Variable P : platform.

(** What the asynchronous context does at the current instant. *)
Definition deliver (s : state) : state :=
  if async_notify P (instant s)
  then match lf_notify_of_event s with
       | Ok (_, s') => s'
       | _ => s
       end
  else s.

(** One atomic action goes by: the notification of this instant, if
    any, is taken and the next instant begins. *)
Definition elapse (s : state) : state :=
  set_instant (S (instant s)) (deliver s).

Definition preempt : M unit := modify elapse.

(** [n] atomic actions go by. *)
Fixpoint elapse_n (n : nat) (s : state) : state :=
  match n with
  | O => s
  | S n' => elapse_n n' (elapse s)
  end.

(** Whether a notification arrives at one of the [n] instants from
    instant [i] on. *)
Definition notified_between (i n : nat) : bool :=
  existsb (async_notify P) (seq i n).

Definition SOLID_TIMER_GetCurrentTick : M Z :=
  fun s => Ok (current_tick P (instant s), elapse s).

Definition SOLID_TIMER_GetTicksPerSec : M Z := ret (ticks_per_sec P).

(** Modelled from the SOLID API: the critical section of
    [solid_mutex.h] is not part of the sources.  It is kept as the
    number of times the runtime has entered it without leaving. *)
Definition SOLID_InitializeCriticalSection : M unit :=
  modify (set_critical_section 0%nat).
Definition SOLID_EnterCriticalSection : M unit :=
  modify (fun s => set_critical_section (S (_critical_section s)) s).
Definition SOLID_LeaveCriticalSection : M unit :=
  modify (fun s => set_critical_section (Nat.pred (_critical_section s)) s).

(** The two conversions between ticks and nanoseconds, as the
    expressions of [lf_clock_gettime] and [wait_nsec] compute them. *)
Definition ticks_to_nsec (nsecPerTick : Double.double) (tick : Z) : option Z :=
  Double.to_Z (2 ^ 63) (Double.mul (Double.of_Z tick) nsecPerTick).

Definition nsec_to_ticks (nsecPerTick : Double.double) (nsec : Z) : option Z :=
  Double.to_Z (2 ^ 64) (Double.div (Double.of_Z nsec) nsecPerTick).

Fixpoint wait_loop (fuel : nat) (until : Z) : M unit :=
  match fuel with
  | O => fun _ => OutOfFuel
  | S fuel' =>
      now <- SOLID_TIMER_GetCurrentTick ;;
      if now >=? until then ret tt else wait_loop fuel' until
  end.

Definition wait_nsec (fuel : nat) (nsec : Z) : M unit :=
  now <- SOLID_TIMER_GetCurrentTick ;;
  nsecPerTick <- get _nw_nsecPerTick ;;
  ticks <- lift OutOfRangeConversion (nsec_to_ticks nsecPerTick nsec) ;;
  let until := CInt.add_uint64 now ticks in
  if now >=? until then ret tt
  else wait_loop fuel until.

(** [1000000000.0 / (double) SOLID_TIMER_GetTicksPerSec()] *)
Definition nsec_per_tick (tps : Z) : Double.double :=
  Double.div (Double.of_Z 1000000000) (Double.of_Z tps).

Definition lf_initialize_clock : M unit :=
  tps <- SOLID_TIMER_GetTicksPerSec ;;
  modify (set_nsecPerTick (nsec_per_tick tps)).

(** The result is the pair of the value returned and the value
    stored through [t]. *)
Definition lf_clock_gettime (t : pointer) : M (Z * Z) :=
  solid_cs_assert (negb (is_null t)) ;;
  tick <- SOLID_TIMER_GetCurrentTick ;;
  nsecPerTick <- get _nw_nsecPerTick ;;
  v <- lift OutOfRangeConversion (ticks_to_nsec nsecPerTick tick) ;;
  ret (0, v).

Definition lf_critical_section_enter : M Z :=
  initialized <- get _critical_section_initialized ;;
  (if negb initialized
   then SOLID_InitializeCriticalSection ;;
        modify (set_critical_section_initialized true)
   else ret tt) ;;
  SOLID_EnterCriticalSection ;;
  ret 0.

Definition lf_critical_section_exit : M Z :=
  SOLID_LeaveCriticalSection ;;
  ret 0.

(** Sleep until an absolute time.
    Returns 0 if successful sleep, -1 if awoken by async event.
    [preempt] stands between two statements that touch the shared
    variables: the asynchronous context may run there.  [Addr 1] is the
    address of the local variable [now]. *)
Definition lf_sleep_until_locked (fuel : nat) (wakeup : Z) : M Z :=
  preempt ;;
  modify (set_async_event false) ;;
  preempt ;;
  lf_critical_section_exit ;;
  r <- lf_clock_gettime (Addr 1) ;;
  let now := snd r in
  sleep_duration <- lift SignedOverflow (CInt.sub_int64 wakeup now) ;;
  if sleep_duration <? 0 then ret 0
  else
    wait_nsec fuel (CInt.to_unsigned 32 sleep_duration) ;;
    preempt ;;
    lf_critical_section_enter ;;
    preempt ;;
    async_event <- get _lf_async_event ;;
    if async_event
    then modify (set_async_event false) ;; ret (-1)
    else ret 0.

(** The state in which [lf_sleep_until_locked] returns after having
    waited, [k] being the number of turns of the busy-wait loop. *)
Definition slept_state (s : state) (k : nat) : state :=
  {| _lf_async_event := false;
     _nw_nsecPerTick := _nw_nsecPerTick s;
     _critical_section :=
       S (if _critical_section_initialized s
          then Nat.pred (_critical_section s) else 0%nat);
     _critical_section_initialized := true;
     instant := (instant s + k + 6)%nat |}.

(** The state in which it returns when the wakeup time has passed. *)
Definition early_state (s : state) : state :=
  {| _lf_async_event :=
       async_notify P (S (instant s)) || async_notify P (S (S (instant s)));
     _nw_nsecPerTick := _nw_nsecPerTick s;
     _critical_section := Nat.pred (_critical_section s);
     _critical_section_initialized := _critical_section_initialized s;
     instant := (instant s + 3)%nat |}.

Definition clock_initialized (s : state) : Prop :=
  _nw_nsecPerTick s = nsec_per_tick (ticks_per_sec P).

(** [v] nanoseconds is what [tick] ticks of a counter running at [tps]
    ticks per second come to, cut to a whole number of nanoseconds, up
    to a relative error of [2^-50], which covers the roundings to
    [double] the computation goes through: with [x = tick * 10^9 / tps],
    [v <= (1 + 2^-50) * x] and [(1 - 2^-50) * x < v + 1]. *)
Definition scaled_tick (tps tick v : Z) : Prop :=
  2 ^ 50 * (tps * v) <= (2 ^ 50 + 1) * (10 ^ 9 * tick) /\
  (2 ^ 50 - 1) * (10 ^ 9 * tick) < 2 ^ 50 * (tps * (v + 1)).

(** [lf_sleep_until_locked] as the file defines it when [LF_THREADED]
    is defined: the event flag and the critical section are left out. *)
Definition lf_sleep_until_locked_threaded (fuel : nat) (wakeup : Z) : M Z :=
  r <- lf_clock_gettime (Addr 1) ;;
  let now := snd r in
  sleep_duration <- lift SignedOverflow (CInt.sub_int64 wakeup now) ;;
  if sleep_duration <? 0 then ret 0
  else
    wait_nsec fuel (CInt.to_unsigned 32 sleep_duration) ;;
    ret 0.

(** Modelled from the ITRON API: [dly_tsk] and [RELTIM] of [kernel.h]
    are not part of the sources.  [RELTIM], the type of the parameter of
    [dly_tsk], is an unsigned integer type of [reltim_bits] bits.
    [dly_tsk] takes the running task off the processor for the delay
    given, in microseconds: [dly_tsk_instants i dlytim] is the number of
    instants that go by when the call is made at instant [i].  Its error
    code is not looked at by the caller. *)
Variable reltim_bits : Z.
Variable dly_tsk_instants : nat -> Z -> nat.

Definition dly_tsk (dlytim : Z) : M Z :=
  fun s => Ok (0, elapse_n (dly_tsk_instants (instant s) dlytim) s).

(** Sleep for a specified duration.
    Returns 0 if success, -1 if interrupted by async event. *)
Definition lf_sleep (fuel : nat) (sleep_duration : Z) : M Z :=
  if sleep_duration <? 0 then ret 0
  else if sleep_duration <? 1000
  then wait_nsec fuel (CInt.to_unsigned 32 sleep_duration) ;; ret 0
  else
    sum <- lift SignedOverflow (CInt.add_int64 sleep_duration 500) ;;
    let sleep_usec := Z.quot sum 1000 in
    (* the argument is converted from [interval_t] to [RELTIM] *)
    dly_tsk (CInt.to_unsigned reltim_bits sleep_usec) ;;
    ret 0.

End WithPlatform.

(** *** The console overrides, [USE_NETLOGGER] not being defined *)

(** A store into a local array; outside the array it is undefined. *)
Definition store (buf : list byte) (i : Z) (b : byte) : result (list byte) :=
  if (0 <=? i) && (i <? Z.of_nat (List.length buf))
  then Ok (<[Z.to_nat i := b]> buf)
  else Undefined OutOfBoundsAccess.

(** [SOLID_LOG_write(buf, len)] sends the first [len] bytes. *)
Definition SOLID_LOG_write (buf : list byte) (len : Z) : list byte :=
  take (Z.to_nat len) buf.

(** [char buf[1024]] holding whatever the stack held. *)
Definition local_buf (junk : list byte) : list byte := resize 1024 x00 junk.

(** The call of [vsnprintf] the overrides make.  A format outside the
    description of the C library is reported as such; a described format
    whose arguments do not match it is undefined. *)
Definition vsnprintf (buf : list byte) (n : nat) (fmt : string)
    (args : list Printf.arg) : result (Z * list byte) :=
  match Printf.parse fmt with
  | None => NotDescribed
  | Some _ => defined BadFormat (Printf.vsnprintf buf n fmt args)
  end.

(** The result is the value returned and the bytes sent to the log. *)
Definition printf (junk : list byte) (fmt : string) (args : list Printf.arg)
    : result (Z * list byte) :=
  let buf := local_buf junk in
  result_bind (vsnprintf buf 1024 fmt args)
    (fun '(ret, buf) =>
       result_bind (store buf ret x00) (fun buf =>
         let ret := ret + 1 in
         Ok (ret, SOLID_LOG_write buf ret))).

Definition lf_print (junk : list byte) (fmt : string) (args : list Printf.arg)
    : result (list byte) :=
  let buf := local_buf junk in
  result_bind (vsnprintf buf 1024 fmt args)
    (fun '(ret, buf) =>
       result_bind (store buf ret x0a) (fun buf =>
         let ret := ret + 1 in
         result_bind (store buf ret x00) (fun buf =>
           let ret := ret + 1 in
           Ok (SOLID_LOG_write buf ret)))).

(** A string literal as the array of bytes it denotes. *)
Definition c_string (s : string) : list byte := list_byte_of_string s ++ [x00].

(** The result of the next two is the sequence of the writes to the log. *)
Definition lf_print_debug (junk : list byte) (fmt : string)
    (args : list Printf.arg) : result (list (list byte)) :=
  let buf := local_buf junk in
  result_bind (vsnprintf buf 1024 fmt args)
    (fun '(ret, buf) =>
       result_bind (store buf ret x0a) (fun buf =>
         let ret := ret + 1 in
         result_bind (store buf ret x00) (fun buf =>
           let ret := ret + 1 in
           Ok [SOLID_LOG_write (c_string "[DEBUG] ") 8;
               SOLID_LOG_write buf ret]))).

Definition lf_print_log (junk : list byte) (fmt : string)
    (args : list Printf.arg) : result (list (list byte)) :=
  let buf := local_buf junk in
  result_bind (vsnprintf buf 1024 fmt args)
    (fun '(ret, buf) =>
       result_bind (store buf ret x0a) (fun buf =>
         let ret := ret + 1 in
         result_bind (store buf ret x00) (fun buf =>
           let ret := ret + 1 in
           Ok [SOLID_LOG_write (c_string "[LOG] ") 6;
               SOLID_LOG_write buf ret]))).

End Solid.

(** ** Scenarios *)

Module Scenario.

(** A platform whose tick counter advances by one at every instant. *)
Definition counting_platform (tps : Z) (notify : nat -> bool) : Solid.platform :=
  {| Solid.current_tick := Z.of_nat;
     Solid.ticks_per_sec := tps;
     Solid.async_notify := notify |}.

(** A platform whose 64-bit tick counter has reached [2 ^ 63]. *)
Definition late_platform (tps : Z) : Solid.platform :=
  {| Solid.current_tick := fun i => Z.min (2 ^ 63 + Z.of_nat i) (2 ^ 64 - 1);
     Solid.ticks_per_sec := tps;
     Solid.async_notify := fun _ => false |}.

Definition never : nat -> bool := fun _ => false.
Definition at_instant (i : nat) : nat -> bool := Nat.eqb i.

(** The runtime at instant [i]: clock initialised, critical section
    held once, no event pending. *)
Definition locked_state (tps : Z) (i : nat) : Solid.state :=
  {| Solid._lf_async_event := false;
     Solid._nw_nsecPerTick := Solid.nsec_per_tick tps;
     Solid._critical_section := 1%nat;
     Solid._critical_section_initialized := true;
     Solid.instant := i |}.

Definition GHz : Z := 1000000000.

Definition long_string (n : nat) : string :=
  string_of_list_ascii (replicate n "a"%char).

(** The tag NEVER of the runtime. *)
Definition NEVER_TAG : Tag.tag_t :=
  {| Tag.time := CInt.INT64_MIN; Tag.microstep := 0 |}.

(** An allocator that never fails and hands out blocks holding [junk]. *)
Definition junk_allocator (junk : list byte) : Heap.allocator :=
  {| Heap.alloc_fails := fun _ _ => false;
     Heap.alloc_junk := fun _ _ => junk |}.

End Scenario.

(** * Properties *)

(** ** Rounding to binary64 is monotone *)

Module DoubleFacts.
Import Double.
Local Open Scope Q_scope.

Lemma pow2_pos (e : Z) : 0 < 2 ^ e.
Proof. apply Qpower_0_lt. reflexivity. Qed.

Lemma pow2_add (a b : Z) : 2 ^ (a + b) == 2 ^ a * 2 ^ b.
Proof. apply Qpower_plus. discriminate. Qed.

Lemma pow2_le (a b : Z) : (a <= b)%Z -> 2 ^ a <= 2 ^ b.
Proof. intros H. apply Qpower_le_compat_l; [exact H | discriminate]. Qed.

Lemma pow2_lt (a b : Z) : (a < b)%Z -> 2 ^ a < 2 ^ b.
Proof. intros H. apply Qpower_lt_compat_l; [exact H | reflexivity]. Qed.

Lemma pow2_inject (k : Z) : (0 <= k)%Z -> 2 ^ k == inject_Z (2 ^ k).
Proof. intros H. symmetry. apply (Zpower_Qpower 2 k H). Qed.

Lemma pow2_succ (e : Z) : 2 ^ (e + 1) == 2 * 2 ^ e.
Proof. rewrite pow2_add. change (2 ^ 1) with 2. ring. Qed.

Lemma Q_as_frac (x : Q) : x * inject_Z (Zpos (Qden x)) == inject_Z (Qnum x).
Proof.
  destruct x as [n d]. unfold Qeq, Qmult, inject_Z. simpl. 
  rewrite Pos.mul_1_r. lia.
Qed.


Lemma log2_bounds (n : Z) :
  (0 < n)%Z -> 2 ^ Z.log2 n <= inject_Z n /\ inject_Z n < 2 ^ (Z.log2 n + 1).
Proof.
  intros Hn. pose proof (Z.log2_spec n Hn) as [Hlo Hhi].
  pose proof (Z.log2_nonneg n) as Hnn.
  rewrite !pow2_inject by lia. rewrite <- Zle_Qle, <- Zlt_Qlt.
  split; [exact Hlo | exact Hhi].
Qed.

Lemma binade_spec (x : Q) :
  0 < x -> 2 ^ (binade x - 1) <= x /\ x < 2 ^ binade x.
Proof.
  intros Hx. unfold binade.
  set (n := Qnum x). set (d := Zpos (Qden x)).
  assert (Hn : (0 < n)%Z).
  { destruct x as [xn xd]. unfold Qlt in Hx. simpl in *. lia. }
  assert (Hd : (0 < d)%Z) by (unfold d; lia).
  pose proof (log2_bounds n Hn) as [Hn1 Hn2].
  pose proof (log2_bounds d Hd) as [Hd1 Hd2].
  pose proof (Q_as_frac x) as Hfrac. fold n d in Hfrac.
  set (k := (Z.log2 n - Z.log2 d)%Z).
  assert (Hk1 : 2 ^ Z.log2 n == 2 ^ k * 2 ^ Z.log2 d).
  { rewrite <- pow2_add. unfold k. f_equiv. lia. }
  assert (Hk2 : 2 ^ (Z.log2 n + 1) == 2 ^ (k + 1) * 2 ^ Z.log2 d).
  { rewrite <- pow2_add. unfold k. f_equiv. lia. }
  assert (Hk3 : 2 ^ (Z.log2 d + 1) == 2 * 2 ^ Z.log2 d) by apply pow2_succ.
  assert (Hk4 : 2 ^ (k + 1) == 2 * 2 ^ k) by apply pow2_succ.
  assert (Hk5 : 2 ^ k == 2 * 2 ^ (k - 1)).
  { rewrite <- pow2_succ. f_equiv. lia. }
  pose proof (pow2_pos k). pose proof (pow2_pos (k - 1)).
  pose proof (pow2_pos (Z.log2 d)).
  assert (Hdq : 0 < inject_Z d) by (rewrite Zlt_Qlt in Hd; exact Hd).
  destruct (Qle_bool (2 ^ k) x) eqn:Hb.
  - apply Qle_bool_iff in Hb. replace (k + 1 - 1)%Z with k by lia.
    split; [exact Hb | nra].
  - assert (Hlt : x < 2 ^ k).
    { apply Qnot_le_lt. intros Hle. apply Qle_bool_iff in Hle. congruence. }
    split; [nra | exact Hlt].
Qed.

Lemma binade_unique (x : Q) (b : Z) :
  2 ^ (b - 1) <= x -> x < 2 ^ b -> binade x = b.
Proof.
  intros Hlo Hhi.
  assert (Hx : 0 < x) by (pose proof (pow2_pos (b - 1)); lra).
  destruct (binade_spec x Hx) as [Blo Bhi].
  destruct (Z.lt_trichotomy (binade x) b) as [Hlt | [Heq | Hgt]]; [ | exact Heq | ].
  - pose proof (pow2_le (binade x) (b - 1) ltac:(lia)). lra.
  - pose proof (pow2_le b (binade x - 1) ltac:(lia)). lra.
Qed.

Lemma binade_mono (x y : Q) : 0 < x -> x <= y -> (binade x <= binade y)%Z.
Proof.
  intros Hx Hxy.
  destruct (binade_spec x Hx) as [Xlo Xhi].
  destruct (binade_spec y ltac:(lra)) as [Ylo Yhi].
  destruct (Z.le_gt_cases (binade x) (binade y)) as [Hle | Hgt]; [exact Hle | ].
  pose proof (pow2_le (binade y) (binade x - 1) ltac:(lia)). lra.
Qed.

(** Round-half-even to an integer. *)

Lemma rhe_cases (x : Q) :
  let f := Qfloor x in
  (rhe x = f /\ x - inject_Z f <= 1 # 2) \/
  (rhe x = (f + 1)%Z /\ 1 # 2 <= x - inject_Z f).
Proof.
  intros f. unfold rhe. fold f.
  destruct (Qcompare_spec (x - inject_Z f) (1 # 2)) as [He | Hl | Hg].
  - destruct (Z.even f); [left | right]; split; try reflexivity; lra.
  - left; split; [reflexivity | lra].
  - right; split; [reflexivity | lra].
Qed.

Lemma rhe_inject (z : Z) : rhe (inject_Z z) = z.
Proof.
  unfold rhe. rewrite Qfloor_Z.
  destruct (Qcompare_spec (inject_Z z - inject_Z z) (1 # 2)) as [He | Hl | Hg];
    [lra | reflexivity | lra].
Qed.

Lemma rhe_mono (x y : Q) : x <= y -> (rhe x <= rhe y)%Z.
Proof.
  intros Hxy.
  pose proof (Qfloor_resp_le x y Hxy) as Hf.
  pose proof (Qfloor_le x) as Hx1. pose proof (Qlt_floor x) as Hx2.
  pose proof (Qfloor_le y) as Hy1. pose proof (Qlt_floor y) as Hy2.
  destruct (Z.eq_dec (Qfloor x) (Qfloor y)) as [Heq | Hne].
  - unfold rhe. rewrite <- Heq.
    destruct (Qcompare_spec (x - inject_Z (Qfloor x)) (1 # 2)) as [He | Hl | Hg];
      destruct (Qcompare_spec (y - inject_Z (Qfloor x)) (1 # 2)) as [He' | Hl' | Hg'];
      try lia; try lra; destruct (Z.even (Qfloor x)); lia.
  - destruct (rhe_cases x) as [[-> _] | [-> _]];
      destruct (rhe_cases y) as [[-> _] | [-> _]]; lia.
Qed.

Lemma rhe_nonneg (x : Q) : 0 <= x -> (0 <= rhe x)%Z.
Proof. intros Hx. rewrite <- (rhe_inject 0). apply rhe_mono. exact Hx. Qed.

Lemma scaled_pos (x : Q) (e : Z) : 0 < x -> 0 < x / 2 ^ e.
Proof.
  intros Hx. apply Qlt_shift_div_l; [apply pow2_pos | lra].
Qed.

Lemma scaled_le (x y : Q) (e : Z) : x <= y -> x / 2 ^ e <= y / 2 ^ e.
Proof.
  intros Hxy. unfold Qdiv. apply Qmult_le_compat_r; [exact Hxy | ].
  apply Qlt_le_weak, Qinv_lt_0_compat, pow2_pos.
Qed.

Lemma scaled_pow2 (k e : Z) : 2 ^ k / 2 ^ e == 2 ^ (k - e).
Proof.
  pose proof (pow2_pos e) as He.
  assert (H : 2 ^ k == 2 ^ (k - e) * 2 ^ e).
  { rewrite <- pow2_add. f_equiv. lia. }
  rewrite H. field. lra.
Qed.

Lemma rounded_nonneg (x : Q) : 0 < x -> 0 <= rounded x.
Proof.
  intros Hx. unfold rounded, F2Q, rmant.
  apply Qmult_le_0_compat; [ | apply Qlt_le_weak, pow2_pos].
  rewrite <- (Zle_Qle 0). apply rhe_nonneg, Qlt_le_weak, scaled_pos, Hx.
Qed.

Lemma rounded_upper (x : Q) : 0 < x -> rounded x <= 2 ^ binade x.
Proof.
  intros Hx. destruct (binade_spec x Hx) as [_ Hhi].
  unfold rounded, F2Q, rmant. set (e := rexp x).
  assert (Hs : x / 2 ^ e <= 2 ^ (binade x - e)).
  { rewrite <- scaled_pow2. apply scaled_le. lra. }
  pose proof (pow2_pos e) as He.
  destruct (Z.le_gt_cases e (binade x)) as [Hle | Hgt].
  - rewrite (pow2_inject (binade x - e)) in Hs by lia.
    apply rhe_mono in Hs. rewrite rhe_inject in Hs.
    rewrite Zle_Qle in Hs. rewrite <- (pow2_inject (binade x - e)) in Hs by lia.
    assert (Hk : 2 ^ binade x == 2 ^ (binade x - e) * 2 ^ e).
    { rewrite <- pow2_add. f_equiv. lia. }
    rewrite Hk. apply Qmult_le_compat_r; [exact Hs | lra].
  - assert (Hhalf : x / 2 ^ e < 1 # 2).
    { assert (Hx' : x / 2 ^ e < 2 ^ (binade x - e)).
      { rewrite <- scaled_pow2. unfold Qdiv.
        apply Qmult_lt_compat_r; [apply Qinv_lt_0_compat, pow2_pos | exact Hhi]. }
      pose proof (pow2_le (binade x - e) (-1) ltac:(lia)) as Hp.
      change (2 ^ (-1)) with (1 # 2) in Hp. lra. }
    pose proof (scaled_pos x e Hx) as Hpos.
    assert (Hfl : Qfloor (x / 2 ^ e) = 0%Z).
    { pose proof (Qfloor_le (x / 2 ^ e)) as F1.
      pose proof (Qlt_floor (x / 2 ^ e)) as F2.
      assert (F3 : inject_Z (Qfloor (x / 2 ^ e)) < 1) by lra.
      assert (F4 : 0 < inject_Z (Qfloor (x / 2 ^ e) + 1)) by lra.
      rewrite <- (Zlt_Qlt _ 1) in F3. rewrite <- (Zlt_Qlt 0) in F4. lia. }
    destruct (rhe_cases (x / 2 ^ e)) as [[-> _] | [_ Hc]].
    + rewrite Hfl. change (inject_Z 0) with 0.
      pose proof (pow2_pos (binade x)). lra.
    + rewrite Hfl in Hc. change (inject_Z 0) with 0 in Hc. lra.
Qed.

Lemma rounded_lower (x : Q) :
  0 < x -> (rexp x <= binade x - 1)%Z -> 2 ^ (binade x - 1) <= rounded x.
Proof.
  intros Hx He. destruct (binade_spec x Hx) as [Hlo _].
  unfold rounded, F2Q, rmant. set (e := rexp x) in *.
  assert (Hs : 2 ^ (binade x - 1 - e) <= x / 2 ^ e).
  { rewrite <- scaled_pow2. apply scaled_le. exact Hlo. }
  rewrite (pow2_inject (binade x - 1 - e)) in Hs by lia.
  apply rhe_mono in Hs. rewrite rhe_inject in Hs.
  rewrite Zle_Qle in Hs. rewrite <- (pow2_inject (binade x - 1 - e)) in Hs by lia.
  assert (Hk : 2 ^ (binade x - 1) == 2 ^ (binade x - 1 - e) * 2 ^ e).
  { rewrite <- pow2_add. f_equiv. lia. }
  rewrite Hk. apply Qmult_le_compat_r; [exact Hs | ].
  apply Qlt_le_weak, pow2_pos.
Qed.

Lemma rounded_mono (x y : Q) : 0 < x -> x <= y -> rounded x <= rounded y.
Proof.
  intros Hx Hxy. assert (Hy : 0 < y) by lra.
  pose proof (binade_mono x y Hx Hxy) as Hb.
  destruct (Z.eq_dec (rexp x) (rexp y)) as [Heq | Hne].
  - unfold rounded, F2Q, rmant. rewrite <- Heq.
    apply Qmult_le_compat_r; [ | apply Qlt_le_weak, pow2_pos].
    rewrite <- Zle_Qle. apply rhe_mono, scaled_le, Hxy.
  - assert (Hlt : (binade x < binade y)%Z /\ (rexp y <= binade y - 1)%Z).
    { unfold rexp, prec, emin in *. lia. }
    destruct Hlt as [Hlt Hey].
    pose proof (rounded_upper x Hx) as Hu.
    pose proof (rounded_lower y Hy Hey) as Hl.
    pose proof (pow2_le (binade x) (binade y - 1) ltac:(lia)). lra.
Qed.

Lemma round_zero (x : Q) : x <= 0 -> round x = DFin 0 0.
Proof.
  intros Hx. unfold round.
  apply Qle_bool_iff in Hx. rewrite Hx. reflexivity.
Qed.

Lemma round_pos (x : Q) :
  0 < x ->
  (2 ^ emax <= rounded x /\ round x = DInf) \/
  (rounded x < 2 ^ emax /\ round x = DFin (rmant x) (rexp x)).
Proof.
  intros Hx. unfold round.
  destruct (Qle_bool x 0) eqn:H0.
  { apply Qle_bool_iff in H0. lra. }
  fold (rounded x).
  destruct (Qle_bool (2 ^ emax) (rounded x)) eqn:Hov.
  - left. apply Qle_bool_iff in Hov. split; [exact Hov | reflexivity].
  - right. split; [ | reflexivity].
    apply Qnot_le_lt. intros Hle. apply Qle_bool_iff in Hle. congruence.
Qed.

Lemma round_nonneg (x : Q) : nonneg (round x).
Proof.
  destruct (Qlt_le_dec 0 x) as [Hx | Hx].
  - destruct (round_pos x Hx) as [[_ ->] | [_ ->]]; simpl; [exact I | ].
    apply rhe_nonneg, Qlt_le_weak, scaled_pos, Hx.
  - rewrite round_zero by exact Hx. simpl. lia.
Qed.

Lemma round_not_nan (x : Q) : round x <> DNaN.
Proof.
  unfold round.
  destruct (Qle_bool x 0); [discriminate | ].
  destruct (Qle_bool _ _); discriminate.
Qed.

Theorem round_mono (x y : Q) : x <= y -> le (round x) (round y).
Proof.
  intros Hxy.
  destruct (Qlt_le_dec 0 x) as [Hx | Hx].
  - assert (Hy : 0 < y) by lra.
    pose proof (rounded_mono x y Hx Hxy) as Hm. unfold rounded in Hm.
    destruct (round_pos x Hx) as [[Ox ->] | [Ox ->]];
      destruct (round_pos y Hy) as [[Oy ->] | [Oy ->]]; simpl;
      unfold rounded in *; trivial; lra.
  - rewrite (round_zero x Hx).
    destruct (Qlt_le_dec 0 y) as [Hy | Hy].
    + destruct (round_pos y Hy) as [[_ ->] | [_ ->]]; simpl; [exact I | ].
      pose proof (rounded_nonneg y Hy) as Hn. unfold rounded in Hn.
      unfold F2Q at 1. change (inject_Z 0) with 0. lra.
    + rewrite (round_zero y Hy). simpl. lra.
Qed.

Lemma F2Q_nonneg (m e : Z) : (0 <= m)%Z -> 0 <= F2Q m e.
Proof.
  intros Hm. unfold F2Q. apply Qmult_le_0_compat.
  - rewrite <- (Zle_Qle 0). exact Hm.
  - apply Qlt_le_weak, pow2_pos.
Qed.

Lemma of_Z_mono (a b : Z) : (a <= b)%Z -> le (of_Z a) (of_Z b).
Proof. intros H. apply round_mono. rewrite <- Zle_Qle. exact H. Qed.

Lemma mul_mono_l (a b : double) (m e : Z) :
  nonneg a -> (0 <= m)%Z -> le a b ->
  le (mul a (DFin m e)) (mul b (DFin m e)) \/ mul b (DFin m e) = DNaN.
Proof.
  intros Ha Hm Hab. pose proof (F2Q_nonneg m e Hm) as Hc.
  destruct a as [ma ea | | ], b as [mb eb | | ]; simpl in Hab; try contradiction.
  - left. simpl. apply round_mono.
    apply Qmult_le_compat_r; [exact Hab | exact Hc].
  - simpl. destruct (m =? 0)%Z eqn:Hz; [right; reflexivity | left].
    pose proof (round_not_nan (F2Q ma ea * F2Q m e)) as Hn.
    destruct (round (F2Q ma ea * F2Q m e)); simpl; trivial. congruence.
  - simpl. destruct (m =? 0)%Z; [right; reflexivity | left; exact I].
Qed.

Lemma to_Z_mono (bound : Z) (a b : double) (vb : Z) :
  le a b -> to_Z bound b = Some vb ->
  exists va, to_Z bound a = Some va /\ (va <= vb)%Z.
Proof.
  intros Hab Hb.
  destruct a as [ma ea | | ], b as [mb eb | | ]; simpl in Hab;
    try contradiction; try discriminate.
  apply Qfloor_resp_le in Hab. unfold to_Z in *.
  destruct (Qfloor (F2Q mb eb) <? bound)%Z eqn:Hlt; [ | discriminate].
  injection Hb as <-. apply Z.ltb_lt in Hlt.
  exists (Qfloor (F2Q ma ea)).
  assert (Hlt' : (Qfloor (F2Q ma ea) <? bound)%Z = true) by (apply Z.ltb_lt; lia).
  rewrite Hlt'. split; [reflexivity | exact Hab].
Qed.
End DoubleFacts.

(** ** The model against the machine's binary64

    On the expressions of [lf_initialize_clock], [lf_clock_gettime] and
    [wait_nsec] the operations of [Double] yield the values the
    primitive binary64 operations yield. *)

Example nsec_per_tick_agrees_with_binary64 :
  forallb (fun tps =>
    Double.eqb (Solid.nsec_per_tick tps)
      (Double.of_prim
         (PrimFloat.div (Double.prim_of_Z 1000000000) (Double.prim_of_Z tps))))
    [1; 3; 1000; 32768; 1000000; 24000000; 19200000; 62500000;
     1000000000; 3000000000]
  = true.
Proof. vm_compute. reflexivity. Qed.

Example ticks_to_nsec_agrees_with_binary64 :
  forallb (fun tick =>
    Double.eqb
      (Double.mul (Double.of_Z tick) (Solid.nsec_per_tick 24000000))
      (Double.of_prim
         (PrimFloat.mul (Double.prim_of_Z tick)
            (PrimFloat.div (Double.prim_of_Z 1000000000)
               (Double.prim_of_Z 24000000)))))
    [0; 1; 7; 123456789; 9007199254740993; 123456789123456789;
     4611686018427387903]
  = true.
Proof. vm_compute. reflexivity. Qed.

Example nsec_to_ticks_agrees_with_binary64 :
  forallb (fun nsec =>
    Double.eqb
      (Double.div (Double.of_Z nsec) (Solid.nsec_per_tick 24000000))
      (Double.of_prim
         (PrimFloat.div (Double.prim_of_Z nsec)
            (PrimFloat.div (Double.prim_of_Z 1000000000)
               (Double.prim_of_Z 24000000)))))
    [0; 1; 999; 1000; 123456789; 4294967295]
  = true.
Proof. vm_compute. reflexivity. Qed.

Example double_agrees_with_binary64 :
  forallb DoubleTest.agree_conv (DoubleTest.pairs 100 3) = true /\
  forallb DoubleTest.agree_mul (DoubleTest.pairs 100 1) = true /\
  forallb DoubleTest.agree_div (DoubleTest.pairs 100 2) = true /\
  forallb DoubleTest.agree_mul
    (map (DoubleTest.narrow 20) (DoubleTest.pairs 100 4)) = true /\
  forallb DoubleTest.agree_div
    (map (DoubleTest.narrow 40) (DoubleTest.pairs 100 5)) = true /\
  forallb DoubleTest.agree_div
    (map (DoubleTest.narrow 5) (DoubleTest.pairs 100 6)) = true.
Proof. repeat split; vm_compute; reflexivity. Qed.

(** Products up to overflow and quotients down to the subnormal numbers
    and zero. *)
Example double_agrees_at_the_ends_of_the_range :
  DoubleTest.all_agree
    (DoubleTest.chain Double.mul 20 (Double.of_Z 3) (Double.of_Z (2 ^ 62 - 12345)))
    (DoubleTest.prim_chain PrimFloat.mul 20 (Double.prim_of_Z 3)
       (Double.prim_of_Z (2 ^ 62 - 12345))) = true /\
  DoubleTest.all_agree
    (DoubleTest.chain Double.div 20 (Double.of_Z 3) (Double.of_Z (2 ^ 62 - 12345)))
    (DoubleTest.prim_chain PrimFloat.div 20 (Double.prim_of_Z 3)
       (Double.prim_of_Z (2 ^ 62 - 12345))) = true /\
  nth 17 (DoubleTest.chain Double.mul 20 (Double.of_Z 3)
            (Double.of_Z (2 ^ 62 - 12345))) Double.DNaN = Double.DInf /\
  nth 16 (DoubleTest.chain Double.div 20 (Double.of_Z 3)
            (Double.of_Z (2 ^ 62 - 12345))) Double.DNaN
    = Double.DFin 3145728 (-1074).
Proof. repeat split; vm_compute; reflexivity. Qed.

(** Division by zero and zero times infinity. *)
Example double_special_values :
  Double.div (Double.of_Z 5) (Double.of_Z 0) = Double.DInf /\
  Double.div (Double.of_Z 0) (Double.of_Z 0) = Double.DNaN /\
  Double.mul (Double.of_Z 0) Double.DInf = Double.DNaN /\
  Double.of_prim (PrimFloat.div (Double.prim_of_Z 5) (Double.prim_of_Z 0))
    = Double.DInf /\
  Double.of_prim (PrimFloat.div (Double.prim_of_Z 0) (Double.prim_of_Z 0))
    = Double.DNaN.
Proof. repeat split; vm_compute; reflexivity. Qed.

(** ** Bounds on rounded values *)

Module DoubleBounds.
Import Double DoubleFacts.
Local Open Scope Q_scope.

Lemma rhe_comp (x y : Q) : x == y -> rhe x = rhe y.
Proof.
  intros Hxy. unfold rhe. rewrite (Qfloor_comp x y Hxy).
  assert (Hc : (x - inject_Z (Qfloor y) ?= 1 # 2) = (y - inject_Z (Qfloor y) ?= 1 # 2)).
  { apply Qcompare_comp; [rewrite Hxy; reflexivity | reflexivity]. }
  rewrite Hc. reflexivity.
Qed.

Lemma binade_below (x : Q) (b : Z) : 0 < x -> x < 2 ^ b -> (binade x <= b)%Z.
Proof.
  intros Hx Hb. destruct (binade_spec x Hx) as [Hlo _].
  destruct (Z.le_gt_cases (binade x) b) as [Hle | Hgt]; [exact Hle | ].
  pose proof (pow2_le b (binade x - 1) ltac:(lia)). lra.
Qed.

(** A value with a mantissa of at most 53 bits and an exponent in range
    is left unchanged by rounding. *)
Lemma rounded_exact (z j : Z) :
  (0 < z < 2 ^ 53)%Z -> (emin <= j)%Z -> rounded (F2Q z j) == F2Q z j.
Proof.
  intros [Hz0 Hz1] Hj. unfold rounded.
  set (x := F2Q z j). set (e := rexp x).
  assert (Hzq : 0 < inject_Z z) by (rewrite <- (Zlt_Qlt 0); exact Hz0).
  assert (Hx : 0 < x).
  { unfold x, F2Q. apply Qmult_lt_0_compat; [exact Hzq | apply pow2_pos]. }
  assert (Hb : (binade x <= 53 + j)%Z).
  { apply binade_below; [exact Hx | ].
    rewrite pow2_add. unfold x, F2Q.
    apply Qmult_lt_compat_r; [apply pow2_pos | ].
    rewrite (pow2_inject 53) by lia. rewrite <- Zlt_Qlt. exact Hz1. }
  assert (He : (e <= j)%Z) by (unfold e, rexp, prec, emin in *; lia).
  assert (Hs : x / 2 ^ e == inject_Z (z * 2 ^ (j - e))).
  { rewrite inject_Z_mult, <- pow2_inject by lia.
    unfold x, F2Q. unfold Qdiv. rewrite <- Qmult_assoc.
    apply Qmult_comp; [reflexivity | ]. apply scaled_pow2. }
  unfold rmant. fold x e. rewrite (rhe_comp _ _ Hs), rhe_inject.
  unfold x, F2Q.
  rewrite inject_Z_mult, <- pow2_inject by lia.
  rewrite <- Qmult_assoc, <- pow2_add.
  apply Qmult_comp; [reflexivity | ]. f_equiv. lia.
Qed.

Lemma F2Q_one (k : Z) : F2Q 1 k == 2 ^ k.
Proof. unfold F2Q. change (inject_Z 1) with 1. ring. Qed.

Lemma round_bounded_above (x : Q) (z j : Z) :
  x <= F2Q z j -> (0 < z < 2 ^ 53)%Z -> (emin <= j)%Z -> F2Q z j < 2 ^ emax ->
  bounded_above (round x) (F2Q z j).
Proof.
  intros Hx Hz Hj Hmax.
  pose proof (rounded_exact z j Hz Hj) as Hex.
  destruct (Qlt_le_dec 0 x) as [Hpos | Hneg].
  - pose proof (rounded_mono x (F2Q z j) Hpos Hx) as Hm.
    destruct (round_pos x Hpos) as [[Ov ->] | [Ov ->]]; simpl.
    + lra.
    + unfold rounded in *. lra.
  - rewrite (round_zero x Hneg). simpl.
    unfold F2Q at 1. change (inject_Z 0) with 0.
    pose proof (F2Q_nonneg z j ltac:(lia)). lra.
Qed.

Lemma round_bounded_below (x : Q) (z j : Z) :
  F2Q z j <= x -> (0 < z < 2 ^ 53)%Z -> (emin <= j)%Z ->
  bounded_below (round x) (F2Q z j).
Proof.
  intros Hx Hz Hj.
  pose proof (rounded_exact z j Hz Hj) as Hex.
  assert (Hzq : 0 < F2Q z j).
  { unfold F2Q. apply Qmult_lt_0_compat; [ | apply pow2_pos].
    rewrite <- (Zlt_Qlt 0). lia. }
  pose proof (rounded_mono (F2Q z j) x Hzq Hx) as Hm.
  destruct (round_pos x ltac:(lra)) as [[Ov ->] | [Ov ->]]; simpl.
  - exact I.
  - unfold rounded in *. lra.
Qed.
End DoubleBounds.

(** ** The tick-to-nanosecond conversion *)

Module ClockFacts.
Import Double DoubleFacts DoubleBounds Solid.
Local Open Scope Q_scope.

Lemma of_Z_giga : of_Z 1000000000 = DFin 8388608000000000 (-23).
Proof. vm_compute. reflexivity. Qed.

Lemma giga_value : F2Q 8388608000000000 (-23) == inject_Z 1000000000.
Proof. vm_compute. reflexivity. Qed.

Lemma bounded_above_fin (a : double) (q : Q) :
  bounded_above a q -> exists m e, a = DFin m e /\ F2Q m e <= q.
Proof.
  destruct a as [m e | | ]; simpl; intros H; try contradiction.
  exists m, e. split; [reflexivity | exact H].
Qed.

Lemma bounded_above_weaken (a : double) (q q' : Q) :
  bounded_above a q -> q <= q' -> bounded_above a q'.
Proof. destruct a; simpl; intros H Hq; [lra | exact H | exact H]. Qed.

Lemma nsec_per_tick_bounds (tps a : Z) :
  (0 <= a <= 62)%Z -> (10 ^ 9 <= 2 ^ a * tps)%Z ->
  nonneg (nsec_per_tick tps) /\ bounded_above (nsec_per_tick tps) (2 ^ a).
Proof.
  intros Ha Htps. unfold nsec_per_tick. rewrite of_Z_giga.
  assert (Hpa : (0 < 2 ^ a)%Z) by (apply Z.pow_pos_nonneg; lia).
  assert (Htps0 : (0 < tps)%Z) by nia.
  assert (Hq : 0 < inject_Z tps) by (rewrite <- (Zlt_Qlt 0); exact Htps0).
  (* the exactly representable lower bound 10^9 / 2^a of the tick rate *)
  assert (Hlow : F2Q 1000000000 (- a) <= inject_Z tps).
  { unfold F2Q. rewrite Qpower_opp.
    pose proof (pow2_pos a) as Hp.
    apply Qle_shift_div_r; [exact Hp | ].
    rewrite (pow2_inject a) by lia. rewrite <- inject_Z_mult, <- Zle_Qle. lia. }
  pose proof (round_bounded_below (inject_Z tps) 1000000000 (- a)
                Hlow ltac:(lia) ltac:(unfold emin; lia)) as Hb.
  assert (Hlpos : 0 < F2Q 1000000000 (- a)).
  { unfold F2Q. apply Qmult_lt_0_compat; [reflexivity | apply pow2_pos]. }
  unfold of_Z at 1 2.
  destruct (round (inject_Z tps)) as [m2 e2 | | ] eqn:Hr; simpl in Hb.
  - assert (Hm2 : (0 < m2)%Z).
    { destruct (Z.lt_ge_cases 0 m2) as [Hlt | Hge]; [exact Hlt | exfalso].
      assert (F2Q m2 e2 <= 0).
      { unfold F2Q. pose proof (pow2_pos e2).
        assert (inject_Z m2 <= inject_Z 0) by (rewrite <- Zle_Qle; lia).
        change (inject_Z 0) with 0 in *. nra. }
      lra. }
    unfold div. replace (m2 =? 0)%Z with false by (symmetry; apply Z.eqb_neq; lia).
    split; [apply round_nonneg | ].
    apply (bounded_above_weaken _ (F2Q 1 a)); [ | rewrite F2Q_one; lra].
    apply round_bounded_above; [ | lia | unfold emin; lia | ].
    + rewrite F2Q_one, giga_value.
      apply Qle_shift_div_r; [lra | ].
      assert (Hl2 : inject_Z 1000000000 == F2Q 1000000000 (- a) * 2 ^ a).
      { unfold F2Q. rewrite <- Qmult_assoc, <- pow2_add.
        replace (- a + a)%Z with 0%Z by lia. change (2 ^ 0) with 1. ring. }
      rewrite Hl2. pose proof (pow2_pos a). nra.
    + rewrite F2Q_one. apply pow2_lt. unfold emax. lia.
  - simpl. split; [lia | ].
    unfold F2Q. change (inject_Z 0) with 0.
    pose proof (pow2_pos a). lra.
  - contradiction.
Qed.

Lemma ticks_to_nsec_mono (c : double) (t1 t2 v2 : Z) :
  nonneg c -> (t1 <= t2)%Z -> ticks_to_nsec c t2 = Some v2 ->
  exists v1, ticks_to_nsec c t1 = Some v1 /\ (v1 <= v2)%Z.
Proof.
  unfold ticks_to_nsec. intros Hc Ht H2.
  pose proof (of_Z_mono t1 t2 Ht) as Hle.
  destruct c as [mc ec | | ].
  - destruct (mul_mono_l (of_Z t1) (of_Z t2) mc ec
                (round_nonneg _) Hc Hle) as [Hm | Hnan].
    + exact (to_Z_mono _ _ _ v2 Hm H2).
    + rewrite Hnan in H2. discriminate.
  - exfalso. destruct (of_Z t2) as [m e | | ]; simpl in H2;
      try discriminate. destruct (m =? 0)%Z; discriminate.
  - exfalso. destruct (of_Z t2); discriminate.
Qed.

Lemma ticks_to_nsec_defined (c : double) (a b tick : Z) :
  nonneg c -> bounded_above c (2 ^ a) ->
  (0 <= a)%Z -> (0 <= b)%Z -> (a + b <= 62)%Z -> (0 <= tick <= 2 ^ b)%Z ->
  exists v, ticks_to_nsec c tick = Some v.
Proof.
  intros Hc Hca Ha Hb Hab Ht. unfold ticks_to_nsec.
  destruct (bounded_above_fin c _ Hca) as (mc & ec & -> & Hcv).
  simpl in Hc. pose proof (F2Q_nonneg mc ec Hc) as Hc0.
  assert (Htb : bounded_above (of_Z tick) (F2Q 1 b)).
  { apply round_bounded_above; [ | lia | unfold emin; lia | ].
    - rewrite F2Q_one, (pow2_inject b) by lia. rewrite <- Zle_Qle. lia.
    - rewrite F2Q_one. apply pow2_lt. unfold emax. lia. }
  pose proof (round_nonneg (inject_Z tick)) as Htn. fold (of_Z tick) in Htn.
  destruct (bounded_above_fin _ _ Htb) as (mt & et & Heq & Htv).
  rewrite Heq in *. simpl in Htn. pose proof (F2Q_nonneg mt et Htn) as Ht0.
  rewrite F2Q_one in Htv.
  assert (Hprod : bounded_above (mul (DFin mt et) (DFin mc ec)) (F2Q 1 (a + b))).
  { simpl. apply round_bounded_above; [ | lia | unfold emin; lia | ].
    - rewrite F2Q_one, Z.add_comm, pow2_add.
      apply Qmult_le_compat_nonneg; split; assumption.
    - rewrite F2Q_one. apply pow2_lt. unfold emax. lia. }
  destruct (bounded_above_fin _ _ Hprod) as (m & e & Hmul & Hv).
  rewrite Hmul. unfold to_Z.
  assert (Hfl : (Qfloor (F2Q m e) <= 2 ^ 62)%Z).
  { rewrite <- (Qfloor_Z (2 ^ 62)). apply Qfloor_resp_le.
    rewrite F2Q_one in Hv.
    pose proof (pow2_le (a + b) 62 Hab) as Hp.
    rewrite (pow2_inject 62) in Hp by lia. lra. }
  assert (Hlt : (Qfloor (F2Q m e) <? 2 ^ 63)%Z = true) by (apply Z.ltb_lt; lia).
  rewrite Hlt. eexists. reflexivity.
Qed.
Lemma bounded_below_weaken (a : double) (q q' : Q) :
  bounded_below a q -> q' <= q -> bounded_below a q'.
Proof. destruct a; simpl; intros H Hq; [lra | exact H | exact H]. Qed.

(** For tick rates up to [2 ^ 60] the scale factor is at least [2 ^ -31]. *)
Lemma nsec_per_tick_lower (tps : Z) :
  (0 < tps <= 2 ^ 60)%Z -> bounded_below (nsec_per_tick tps) (2 ^ (-31)).
Proof.
  intros [Hpos Hmax]. unfold nsec_per_tick. rewrite of_Z_giga.
  assert (Hq : 0 < inject_Z tps) by (rewrite <- (Zlt_Qlt 0); exact Hpos).
  assert (Hup : inject_Z tps <= F2Q 1 60).
  { rewrite F2Q_one, (pow2_inject 60) by lia. rewrite <- Zle_Qle. exact Hmax. }
  pose proof (round_bounded_above (inject_Z tps) 1 60 Hup ltac:(lia)
                ltac:(unfold emin; lia)
                ltac:(rewrite F2Q_one; apply pow2_lt; unfold emax; lia)) as Hb.
  pose proof (round_bounded_below (inject_Z tps) 1 0
                ltac:(rewrite F2Q_one; change (2 ^ 0) with (inject_Z 1);
                      rewrite <- Zle_Qle; lia)
                ltac:(lia) ltac:(unfold emin; lia)) as Hl.
  unfold of_Z.
  destruct (round (inject_Z tps)) as [m2 e2 | | ]; simpl in Hb, Hl;
    try contradiction.
  rewrite F2Q_one in Hb, Hl. change (2 ^ 0) with 1 in Hl.
  assert (Hm2 : (m2 =? 0)%Z = false).
  { apply Z.eqb_neq. intros ->. unfold F2Q in Hl.
    change (inject_Z 0) with 0 in Hl. lra. }
  unfold div. rewrite Hm2.
  apply (bounded_below_weaken _ (F2Q 1 (-31))); [ | rewrite F2Q_one; lra].
  apply round_bounded_below; [ | lia | unfold emin; lia].
  rewrite F2Q_one, giga_value.
  apply Qle_shift_div_l; [lra | ].
  assert (Hp : 2 ^ (-31) * 2 ^ 60 == inject_Z 536870912).
  { rewrite <- pow2_add. reflexivity. }
  assert (H31 : 0 < 2 ^ (-31)) by apply pow2_pos.
  assert (Hle : 2 ^ (-31) * F2Q m2 e2 <= 2 ^ (-31) * 2 ^ 60) by nra.
  rewrite Hp in Hle.
  assert (inject_Z 536870912 <= inject_Z 1000000000)
    by (rewrite <- Zle_Qle; lia).
  lra.
Qed.

(** With an initialised clock of a tick rate between 1 Hz and [2 ^ 60] Hz
    the number of ticks of every 32-bit duration fits [uint64_t]. *)
Lemma nsec_to_ticks_defined (tps nsec : Z) :
  (0 < tps <= 2 ^ 60)%Z -> (0 <= nsec < 2 ^ 32)%Z ->
  exists ticks, nsec_to_ticks (nsec_per_tick tps) nsec = Some ticks.
Proof.
  intros Htps Hnsec. unfold nsec_to_ticks.
  pose proof (nsec_per_tick_lower tps Htps) as Hlo.
  destruct (nsec_per_tick_bounds tps 30 ltac:(lia) ltac:(lia)) as [Hnn Hup].
  destruct (bounded_above_fin _ _ Hup) as (mc & ec & Hc & _).
  rewrite Hc in *. cbn [bounded_below nonneg] in Hlo, Hnn.
  assert (H31 : 0 < 2 ^ (-31)) by apply pow2_pos.
  assert (Hmc : (mc =? 0)%Z = false).
  { apply Z.eqb_neq. intros ->. unfold F2Q in Hlo.
    change (inject_Z 0) with 0 in Hlo. lra. }
  assert (Hn : bounded_above (of_Z nsec) (F2Q 1 32)).
  { apply round_bounded_above; [ | lia | unfold emin; lia | ].
    - rewrite F2Q_one, (pow2_inject 32) by lia. rewrite <- Zle_Qle. lia.
    - rewrite F2Q_one. apply pow2_lt. unfold emax. lia. }
  pose proof (round_nonneg (inject_Z nsec)) as Hn0. fold (of_Z nsec) in Hn0.
  destruct (bounded_above_fin _ _ Hn) as (mn & en & Hnq & Hnv).
  rewrite Hnq in *. simpl in Hn0. pose proof (F2Q_nonneg mn en Hn0) as Hnpos.
  rewrite F2Q_one in Hnv.
  assert (Hquot : bounded_above (div (DFin mn en) (DFin mc ec)) (F2Q 1 63)).
  { unfold div. rewrite Hmc.
    apply round_bounded_above; [ | lia | unfold emin; lia | ].
    - rewrite F2Q_one. apply Qle_shift_div_r; [lra | ].
      assert (Hp : 2 ^ 63 * 2 ^ (-31) == 2 ^ 32).
      { rewrite <- pow2_add. reflexivity. }
      assert (H63 : 0 < 2 ^ 63) by apply pow2_pos.
      assert (Hle : 2 ^ 63 * 2 ^ (-31) <= 2 ^ 63 * F2Q mc ec) by nra.
      lra.
    - rewrite F2Q_one. apply pow2_lt. unfold emax. lia. }
  destruct (bounded_above_fin _ _ Hquot) as (m & e & Hdiv & Hv).
  rewrite Hdiv. unfold to_Z.
  assert (Hfl : (Qfloor (F2Q m e) <= 2 ^ 63)%Z).
  { rewrite <- (Qfloor_Z (2 ^ 63)). apply Qfloor_resp_le.
    rewrite F2Q_one, (pow2_inject 63) in Hv by lia. exact Hv. }
  assert (Hlt : (Qfloor (F2Q m e) <? 2 ^ 64)%Z = true) by (apply Z.ltb_lt; lia).
  rewrite Hlt. eexists. reflexivity.
Qed.
End ClockFacts.

(** ** The error of the conversion of ticks to nanoseconds

    A rounding to binary64 of a value in the normal range changes it by
    a relative error of at most [2 ^ -53].  The instant computed from the
    counter goes through four roundings: of the tick rate, of the
    quotient, of the counter and of the product. *)

Module RoundingError.
Import Double DoubleFacts DoubleBounds.
Local Open Scope Q_scope.

Lemma half_le (z : Q) : 2 ^ 52 <= z -> 1 # 2 <= z * unit_roundoff.
Proof.
  intros Hz. assert (H52 : 2 ^ 52 == 4503599627370496) by (vm_compute; reflexivity).
  rewrite H52 in Hz. unfold unit_roundoff. lra.
Qed.

Lemma rhe_near (z : Q) : z - (1 # 2) <= inject_Z (rhe z) <= z + (1 # 2).
Proof.
  pose proof (Qfloor_le z) as Hlo. pose proof (Qlt_floor z) as Hhi.
  destruct (rhe_cases z) as [[-> Hc] | [-> Hc]].
  - lra.
  - rewrite inject_Z_plus in *. change (inject_Z 1) with 1 in *. lra.
Qed.

Lemma rounded_error (x : Q) :
  2 ^ (-1022) <= x ->
  x * (1 - unit_roundoff) <= rounded x <= x * (1 + unit_roundoff).
Proof.
  intros Hx.
  assert (Hpos : 0 < x).
  { apply Qlt_le_trans with (2 ^ (-1022)); [apply pow2_pos | exact Hx]. }
  destruct (binade_spec x Hpos) as [Hlo Hhi].
  assert (Hb : (-1022 < binade x)%Z).
  { destruct (Z.lt_ge_cases (-1022) (binade x)) as [H | H]; [exact H | exfalso].
    pose proof (pow2_le (binade x) (-1022) H). lra. }
  unfold rounded, rmant, rexp, prec, emin.
  rewrite Z.max_l by lia.
  set (E := (binade x - 53)%Z).
  set (z := x / 2 ^ E).
  pose proof (pow2_pos E) as HE.
  assert (Hxz : x == z * 2 ^ E).
  { unfold z. field. lra. }
  assert (Hz : 2 ^ 52 <= z).
  { pose proof (scaled_le _ _ E Hlo) as Hs.
    rewrite scaled_pow2 in Hs.
    replace (binade x - 1 - E)%Z with 52%Z in Hs by (unfold E; lia).
    exact Hs. }
  pose proof (half_le z Hz) as Hhalf.
  pose proof (rhe_near z) as [Hn1 Hn2].
  unfold F2Q. clearbody z E. rewrite Hxz.
  set (w := inject_Z (rhe z)) in *. clearbody w.
  split; nra.
Qed.

Lemma round_error (x : Q) :
  0 <= x -> (0 < x -> 2 ^ (-1022) <= x) -> x <= 2 ^ 1023 ->
  exists m e, round x = DFin m e /\ (0 <= m)%Z /\
              x * (1 - unit_roundoff) <= F2Q m e <= x * (1 + unit_roundoff).
Proof.
  intros H0 Hnorm Hmax.
  destruct (Qlt_le_dec 0 x) as [Hpos | Hle].
  - pose proof (rounded_error x (Hnorm Hpos)) as [Hlo Hhi].
    assert (Hlt : rounded x < 2 ^ emax).
    { unfold emax. change 1024%Z with (1023 + 1)%Z. rewrite pow2_succ.
      pose proof (pow2_pos 1023). unfold unit_roundoff in *. nra. }
    destruct (round_pos x Hpos) as [[Hinf _] | [_ Hr]]; [lra | ].
    exists (rmant x), (rexp x). split; [exact Hr | ].
    split; [ | split; assumption].
    unfold rmant. apply rhe_nonneg. apply Qlt_le_weak, scaled_pos, Hpos.
  - exists 0%Z, 0%Z. split; [apply round_zero; exact Hle | ].
    split; [lia | ].
    unfold F2Q. change (inject_Z 0) with 0. unfold unit_roundoff. split; nra.
Qed.

Lemma mul_le (a b c : Q) : a <= b -> 0 <= c -> c * a <= c * b.
Proof. intros Hab Hc. nra. Qed.

Ltac nonneg_product :=
  repeat apply Qmult_le_0_compat; try assumption; try lra.

Section Chain.
Variables (v t r R q C T V G : Q).
Hypothesis Hv : 0 <= v <= 1 # 16.
Hypothesis Ht : 0 <= t.
Hypothesis Hr : 0 < r.
Hypothesis HG : 0 <= G.
Hypothesis HR : r * (1 - v) <= R <= r * (1 + v).
Hypothesis Hq : q * R == G.
Hypothesis HC : q * (1 - v) <= C <= q * (1 + v).
Hypothesis HT : t * (1 - v) <= T <= t * (1 + v).
Hypothesis HV : T * C * (1 - v) <= V <= T * C * (1 + v).

Lemma chain_pos : 0 < R /\ 0 <= q /\ 0 <= C /\ 0 <= T.
Proof.
  assert (HR0 : 0 < R) by nra.
  assert (Hq0 : 0 <= q).
  { destruct (Qlt_le_dec q 0) as [Hneg | Hge]; [exfalso; nra | exact Hge]. }
  repeat split; try assumption; nra.
Qed.

Lemma chain_upper : V * r <= t * G * (1 + 8 * v).
Proof.
  destruct chain_pos as (HR0 & Hq0 & HC0 & HT0).
  destruct HR as [HR1 HR2], HC as [HC1 HC2], HT as [HT1 HT2], HV as [HV1 HV2].
  assert (Hm : 0 <= 1 - v) by lra. assert (Hp : 0 <= 1 + v) by lra.
  assert (Hrm : 0 <= r * (1 - v)) by nonneg_product.
  assert (HTC : 0 <= T * C) by nonneg_product.
  assert (HTCp : 0 <= T * C * (1 + v)) by nonneg_product.
  pose proof (mul_le _ _ (r * (1 - v)) HV2 Hrm) as E1.
  pose proof (mul_le _ _ (T * C * (1 + v)) HR1 HTCp) as E2.
  assert (HTp : 0 <= T * (1 + v) * R) by nonneg_product.
  pose proof (mul_le _ _ (T * (1 + v) * R) HC2 HTp) as E3.
  assert (HGp : 0 <= G * ((1 + v) * (1 + v))) by nonneg_product.
  pose proof (mul_le _ _ (G * ((1 + v) * (1 + v))) HT2 HGp) as E4.
  assert (H4 : (1 + v) * (1 + v) * (1 + v) <= (1 + 8 * v) * (1 - v)) by nra.
  assert (HtG : 0 <= t * G) by nonneg_product.
  pose proof (mul_le _ _ (t * G) H4 HtG) as E5.
  assert (Hs : T * (1 + v) * R * (q * (1 + v)) == G * ((1 + v) * (1 + v)) * T).
  { rewrite <- Hq. ring. }
  assert (H6 : V * r * (1 - v) <= t * G * (1 + 8 * v) * (1 - v)) by lra.
  assert (Hm' : 0 < 1 - v) by lra.
  nra.
Qed.

Lemma chain_lower : t * G * (1 - 8 * v) <= V * r.
Proof.
  destruct chain_pos as (HR0 & Hq0 & HC0 & HT0).
  destruct HR as [HR1 HR2], HC as [HC1 HC2], HT as [HT1 HT2], HV as [HV1 HV2].
  assert (Hm : 0 <= 1 - v) by lra. assert (Hp : 0 <= 1 + v) by lra.
  assert (Hrp : 0 <= r * (1 + v)) by nonneg_product.
  assert (HTC : 0 <= T * C) by nonneg_product.
  assert (HTCm : 0 <= T * C * (1 - v)) by nonneg_product.
  pose proof (mul_le _ _ (r * (1 + v)) HV1 Hrp) as E1.
  pose proof (mul_le _ _ (T * C * (1 - v)) HR2 HTCm) as E2.
  assert (HTm : 0 <= T * (1 - v) * R) by nonneg_product.
  pose proof (mul_le _ _ (T * (1 - v) * R) HC1 HTm) as E3.
  assert (HGm : 0 <= G * ((1 - v) * (1 - v))) by nonneg_product.
  pose proof (mul_le _ _ (G * ((1 - v) * (1 - v))) HT1 HGm) as E4.
  assert (H4 : (1 - 8 * v) * (1 + v) <= (1 - v) * (1 - v) * (1 - v)) by nra.
  assert (HtG : 0 <= t * G) by nonneg_product.
  pose proof (mul_le _ _ (t * G) H4 HtG) as E5.
  assert (Hs : T * (1 - v) * R * (q * (1 - v)) == G * ((1 - v) * (1 - v)) * T).
  { rewrite <- Hq. ring. }
  assert (H6 : t * G * (1 - 8 * v) * (1 + v) <= V * r * (1 + v)) by lra.
  assert (Hp' : 0 < 1 + v) by lra.
  nra.
Qed.

End Chain.

Lemma pow2_small : 2 ^ (-1022) <= 1 # 1099511627776.
Proof.
  apply Qle_trans with (2 ^ (-40)); [apply pow2_le; lia | ].
  vm_compute. discriminate.
Qed.

Lemma pow2_large : 1267650600228229401496703205376 <= 2 ^ 1023.
Proof.
  apply Qle_trans with (2 ^ 100); [vm_compute; discriminate | apply pow2_le; lia].
Qed.

Lemma F2Q_pos (m e : Z) : 0 < F2Q m e -> (0 < m)%Z.
Proof.
  intros H. destruct (Z.lt_ge_cases 0 m) as [Hlt | Hge]; [exact Hlt | exfalso].
  unfold F2Q in H. pose proof (pow2_pos e).
  assert (inject_Z m <= inject_Z 0) by (rewrite <- Zle_Qle; lia).
  change (inject_Z 0) with 0 in *. nra.
Qed.

(** The instant computed from a counter value is the exact one,
    [tick * 10 ^ 9 / tps], up to a relative error of [2 ^ -50] and the
    cut to a whole number. *)
Lemma ticks_to_nsec_accurate (tps tick v : Z) :
  (0 < tps < 2 ^ 64)%Z -> (0 <= tick < 2 ^ 64)%Z ->
  Solid.ticks_to_nsec (Solid.nsec_per_tick tps) tick = Some v ->
  Solid.scaled_tick tps tick v.
Proof.
  intros Htps Htick Hrun.
  pose proof pow2_small as Hsmall. pose proof pow2_large as Hlarge.
  assert (Hr1 : 1 <= inject_Z tps).
  { change 1 with (inject_Z 1). rewrite <- Zle_Qle. lia. }
  assert (Hr2 : inject_Z tps <= 18446744073709551616).
  { change 18446744073709551616 with (inject_Z (2 ^ 64)). rewrite <- Zle_Qle. lia. }
  assert (Ht1 : 0 <= inject_Z tick).
  { change 0 with (inject_Z 0). rewrite <- Zle_Qle. lia. }
  assert (Ht2 : inject_Z tick <= 18446744073709551616).
  { change 18446744073709551616 with (inject_Z (2 ^ 64)). rewrite <- Zle_Qle. lia. }
  assert (Ht3 : 0 < inject_Z tick -> 1 <= inject_Z tick).
  { intros H. change 0 with (inject_Z 0) in H. rewrite <- Zlt_Qlt in H.
    change 1 with (inject_Z 1). rewrite <- Zle_Qle. lia. }
  unfold Solid.ticks_to_nsec, Solid.nsec_per_tick in Hrun.
  rewrite ClockFacts.of_Z_giga in Hrun. unfold of_Z in Hrun.
  pose proof ClockFacts.giga_value as HG.
  change (inject_Z 1000000000) with 1000000000 in HG.
  set (G := F2Q 8388608000000000 (-23)) in *.
  (* the tick rate *)
  destruct (round_error (inject_Z tps)) as (m2 & e2 & Hrd2 & _ & HR);
    [lra | intros _; lra | lra | ].
  rewrite Hrd2 in Hrun.
  set (r := inject_Z tps) in *. set (R := F2Q m2 e2) in *.
  assert (HR0 : 0 < R) by (unfold unit_roundoff in HR; lra).
  pose proof (F2Q_pos m2 e2 HR0) as Hm2.
  cbn [div] in Hrun. fold G in Hrun.
  replace (m2 =? 0)%Z with false in Hrun by (symmetry; apply Z.eqb_neq; lia).
  (* the scale factor *)
  fold R in Hrun.
  assert (Hq : G / R * R == G) by (field; lra).
  assert (HR3 : R <= 36893488147419103232) by (unfold unit_roundoff in HR; lra).
  assert (HR4 : 1 # 2 <= R) by (unfold unit_roundoff in HR; lra).
  assert (Hq1 : 1 # 1099511627776 <= G / R).
  { apply Qle_shift_div_l; [exact HR0 | ]. lra. }
  assert (Hq2 : G / R <= 2000000000).
  { apply Qle_shift_div_r; [exact HR0 | ]. lra. }
  destruct (round_error (G / R)) as (mc & ec & Hrdc & _ & HC);
    [lra | intros _; lra | lra | ].
  rewrite Hrdc in Hrun.
  set (q := G / R) in *. set (C := F2Q mc ec) in *.
  (* the counter *)
  destruct (round_error (inject_Z tick)) as (mt & et & Hrdt & _ & HT);
    [lra | intros H; specialize (Ht3 H); lra | lra | ].
  rewrite Hrdt in Hrun.
  set (t := inject_Z tick) in *. set (T := F2Q mt et) in *.
  cbn [mul] in Hrun. fold T C in Hrun.
  (* the product *)
  assert (HC0 : (1 # 2199023255552) <= C <= 4000000000) by (unfold unit_roundoff in HC; lra).
  assert (HT0 : 0 <= T <= 36893488147419103232) by (unfold unit_roundoff in HT; lra).
  assert (HT3 : 0 < T -> 1 # 2 <= T).
  { intros H. assert (0 < t) by (unfold unit_roundoff in HT; lra).
    specialize (Ht3 ltac:(assumption)). unfold unit_roundoff in HT. lra. }
  assert (Hp0 : 0 <= T * C) by (apply Qmult_le_0_compat; lra).
  assert (Hp1 : 0 < T * C -> 1 # 4398046511104 <= T * C).
  { intros H. assert (HTpos : 0 < T).
    { destruct (Qlt_le_dec 0 T) as [Hlt | Hle]; [exact Hlt | exfalso]. nra. }
    specialize (HT3 HTpos). nra. }
  assert (Hp2 : T * C <= 147573952589676412928000000000) by nra.
  destruct (round_error (T * C)) as (mv & ev & Hrdv & _ & HV);
    [lra | intros H; specialize (Hp1 H); lra | lra | ].
  rewrite Hrdv in Hrun.
  set (V := F2Q mv ev) in *.
  unfold to_Z in Hrun. cbv beta iota zeta in Hrun. fold V in Hrun.
  destruct (Qfloor V <? 2 ^ 63)%Z; [ | discriminate].
  assert (Hv : v = Qfloor V) by congruence. clear Hrun. subst v.
  pose proof (Qfloor_le V) as Hfl. pose proof (Qlt_floor V) as Hfu.
  rewrite inject_Z_plus in Hfu. change (inject_Z 1) with 1 in Hfu.
  assert (Hu : 0 <= unit_roundoff <= 1 # 16) by (unfold unit_roundoff; lra).
  assert (Hr0 : 0 < r) by lra.
  assert (HG0 : 0 <= G) by lra.
  pose proof (chain_upper unit_roundoff t r R q C T V G Hu Ht1 Hr0 HG0 HR Hq HC HT HV) as Hup.
  pose proof (chain_lower unit_roundoff t r R q C T V G Hu Ht1 Hr0 HG0 HR Hq HC HT HV) as Hlow.
  set (w := Qfloor V) in *. clearbody w. clearbody V T C q R.
  unfold Solid.scaled_tick. split.
  - rewrite Zle_Qle. rewrite !inject_Z_mult. fold r t.
    change (inject_Z (2 ^ 50)) with 1125899906842624.
    change (inject_Z (2 ^ 50 + 1)) with 1125899906842625.
    change (inject_Z (10 ^ 9)) with 1000000000.
    assert (inject_Z w * r <= V * r) by nra.
    rewrite HG in Hup. unfold unit_roundoff in Hup.
    lra.
  - rewrite Zlt_Qlt. rewrite !inject_Z_mult, inject_Z_plus. fold r t.
    change (inject_Z (2 ^ 50)) with 1125899906842624.
    change (inject_Z (2 ^ 50 - 1)) with 1125899906842623.
    change (inject_Z (10 ^ 9)) with 1000000000.
    change (inject_Z 1) with 1.
    assert (V * r < (inject_Z w + 1) * r) by nra.
    rewrite HG in Hlow. unfold unit_roundoff in Hlow. lra.
Qed.

End RoundingError.

(** ** Running the sleep *)

Module RunFacts.
Import Solid.
Local Open Scope Z_scope.

Lemma bind_ok {A B : Type} (m : M A) (k : A -> M B) (s s' : state) (a : A) :
  m s = Ok (a, s') -> bind m k s = k a s'.
Proof. intros H. unfold bind. rewrite H. reflexivity. Qed.

Section WithPlatform.
Variable P : platform.

Lemma elapse_eq (s : state) :
  elapse P s =
  {| _lf_async_event := _lf_async_event s || async_notify P (instant s);
     _nw_nsecPerTick := _nw_nsecPerTick s;
     _critical_section := _critical_section s;
     _critical_section_initialized := _critical_section_initialized s;
     instant := S (instant s) |}.
Proof.
  unfold elapse, deliver. destruct s as [f c cs ci i]. simpl.
  destruct (async_notify P i); simpl; destruct f; reflexivity.
Qed.

Lemma instant_elapse (s : state) : instant (elapse P s) = S (instant s).
Proof. rewrite elapse_eq. reflexivity. Qed.

Lemma nsecPerTick_elapse (s : state) :
  _nw_nsecPerTick (elapse P s) = _nw_nsecPerTick s.
Proof. rewrite elapse_eq. reflexivity. Qed.

Lemma elapse_n_instant (n : nat) (s : state) :
  instant (elapse_n P n s) = (instant s + n)%nat.
Proof.
  revert s. induction n as [ | n IH]; intros s; simpl.
  - lia.
  - rewrite IH, elapse_eq. simpl. lia.
Qed.

Lemma elapse_n_nsecPerTick (n : nat) (s : state) :
  _nw_nsecPerTick (elapse_n P n s) = _nw_nsecPerTick s.
Proof.
  revert s. induction n as [ | n IH]; intros s; simpl; [reflexivity | ].
  rewrite IH, elapse_eq. reflexivity.
Qed.

Lemma elapse_n_critical_section (n : nat) (s : state) :
  _critical_section (elapse_n P n s) = _critical_section s /\
  _critical_section_initialized (elapse_n P n s) = _critical_section_initialized s.
Proof.
  revert s. induction n as [ | n IH]; intros s; simpl; [split; reflexivity | ].
  destruct (IH (elapse P s)) as [-> ->]. rewrite elapse_eq. split; reflexivity.
Qed.

Lemma elapse_n_async_event (n : nat) (s : state) :
  _lf_async_event (elapse_n P n s) =
  _lf_async_event s || notified_between P (instant s) n.
Proof.
  unfold notified_between.
  revert s. induction n as [ | n IH]; intros s; simpl.
  - rewrite orb_false_r. reflexivity.
  - rewrite IH, elapse_eq. simpl. rewrite orb_assoc. reflexivity.
Qed.

Lemma elapse_n_succ (n : nat) (s : state) :
  elapse_n P (S n) s = elapse P (elapse_n P n s).
Proof.
  revert s. induction n as [ | n IH]; intros s; [reflexivity | ].
  change (elapse_n P (S (S n)) s) with (elapse_n P (S n) (elapse P s)).
  rewrite IH. reflexivity.
Qed.

Lemma notified_between_app (i n m : nat) :
  notified_between P i (n + m) =
  notified_between P i n || notified_between P (i + n) m.
Proof.
  unfold notified_between. rewrite seq_app, existsb_app. reflexivity.
Qed.

Lemma notified_between_true (i n : nat) :
  notified_between P i n = true <->
  exists k, (i <= k < i + n)%nat /\ async_notify P k = true.
Proof.
  unfold notified_between. rewrite existsb_exists. split.
  - intros (k & Hin & Hk). apply in_seq in Hin. exists k. split; [lia | exact Hk].
  - intros (k & Hin & Hk). exists k. split; [apply in_seq; lia | exact Hk].
Qed.

(** The busy-wait ends at the first instant at which the counter has
    reached [until]. *)
Lemma wait_loop_reaches (n : nat) :
  forall (fuel : nat) (until : Z) (s : state),
    until <= current_tick P (instant s + n) -> (n < fuel)%nat ->
    exists k, (k <= n)%nat /\
      wait_loop P fuel until s = Ok (tt, elapse_n P (S k) s) /\
      until <= current_tick P (instant s + k) /\
      forall j, (j < k)%nat -> current_tick P (instant s + j) < until.
Proof.
  induction n as [ | n IH]; intros fuel until s Hn Hf;
    (destruct fuel as [ | fuel]; [lia | ]).
  - exists 0%nat. simpl. unfold bind, SOLID_TIMER_GetCurrentTick, ret.
    rewrite Nat.add_0_r in *.
    replace (current_tick P (instant s) >=? until) with true
      by (symmetry; apply Z.geb_le; exact Hn).
    repeat split; [lia | exact Hn | intros j Hj; lia].
  - simpl. unfold bind at 1, SOLID_TIMER_GetCurrentTick at 1.
    destruct (current_tick P (instant s) >=? until) eqn:Hge.
    + exists 0%nat. apply Z.geb_le in Hge. rewrite Nat.add_0_r.
      repeat split; [lia | exact Hge | intros j Hj; lia].
    + assert (Hlt : current_tick P (instant s) < until).
      { destruct (Z.lt_ge_cases (current_tick P (instant s)) until) as [H | H];
          [exact H | ]. apply Z.geb_le in H. congruence. }
      destruct (IH fuel until (elapse P s)) as (k & Hk & Hrun & Hreach & Hmin).
      * rewrite instant_elapse. replace (S (instant s) + n)%nat
          with (instant s + S n)%nat by lia. exact Hn.
      * lia.
      * exists (S k). rewrite instant_elapse in Hreach, Hmin.
        repeat split.
        -- lia.
        -- exact Hrun.
        -- replace (instant s + S k)%nat with (S (instant s) + k)%nat by lia.
           exact Hreach.
        -- intros j Hj. destruct j as [ | j].
           ++ rewrite Nat.add_0_r. exact Hlt.
           ++ replace (instant s + S j)%nat with (S (instant s) + j)%nat by lia.
              apply Hmin. lia.
Qed.

Lemma wait_nsec_reaches (n fuel : nat) (nsec ticks : Z) (s : state) :
  nsec_to_ticks (_nw_nsecPerTick s) nsec = Some ticks ->
  CInt.add_uint64 (current_tick P (instant s)) ticks
    <= current_tick P (instant s + n) ->
  (n <= fuel)%nat ->
  exists k, (k <= n)%nat /\
    wait_nsec P fuel nsec s = Ok (tt, elapse_n P (S k) s) /\
    CInt.add_uint64 (current_tick P (instant s)) ticks
      <= current_tick P (instant s + k) /\
    forall j, (j < k)%nat ->
      current_tick P (instant s + j)
        < CInt.add_uint64 (current_tick P (instant s)) ticks.
Proof.
  intros Hticks Hn Hf. set (until := CInt.add_uint64 _ ticks) in *.
  unfold wait_nsec, bind, SOLID_TIMER_GetCurrentTick, get, lift.
  rewrite nsecPerTick_elapse.
  rewrite Hticks. cbn [defined result_bind]. fold until.
  destruct (current_tick P (instant s) >=? until) eqn:Hge.
  - exists 0%nat. apply Z.geb_le in Hge. rewrite Nat.add_0_r.
    repeat split; [lia | exact Hge | intros j Hj; lia].
  - assert (Hlt : current_tick P (instant s) < until).
    { destruct (Z.lt_ge_cases (current_tick P (instant s)) until) as [H | H];
        [exact H | ]. apply Z.geb_le in H. congruence. }
    destruct n as [ | n].
    { rewrite Nat.add_0_r in Hn. lia. }
    destruct (wait_loop_reaches n fuel until (elapse P s))
      as (k & Hk & Hrun & Hreach & Hmin).
    + rewrite instant_elapse. replace (S (instant s) + n)%nat
        with (instant s + S n)%nat by lia. exact Hn.
    + lia.
    + exists (S k). rewrite instant_elapse in Hreach, Hmin.
      repeat split.
      * lia.
      * exact Hrun.
      * replace (instant s + S k)%nat with (S (instant s) + k)%nat by lia.
        exact Hreach.
      * intros j Hj. destruct j as [ | j].
        -- rewrite Nat.add_0_r. exact Hlt.
        -- replace (instant s + S j)%nat with (S (instant s) + j)%nat by lia.
           apply Hmin. lia.
Qed.

Lemma lf_clock_gettime_ok (b : positive) (s : state) (v : Z) :
  ticks_to_nsec (_nw_nsecPerTick s) (current_tick P (instant s)) = Some v ->
  lf_clock_gettime P (Addr b) s = Ok ((0, v), elapse P s).
Proof.
  intros Hv. unfold lf_clock_gettime, bind, solid_cs_assert,
    SOLID_TIMER_GetCurrentTick, get, lift, ret.
  cbn [is_null negb]. rewrite nsecPerTick_elapse, Hv. reflexivity.
Qed.

(** The state [lf_critical_section_enter] leaves. *)
Lemma lf_critical_section_enter_ok (s : state) :
  lf_critical_section_enter s =
  Ok (0, set_critical_section
           (S (if _critical_section_initialized s
               then _critical_section s else 0%nat))
           (set_critical_section_initialized true s)).
Proof.
  unfold lf_critical_section_enter, bind, get.
  destruct s as [f c cs ci i]. destruct ci; reflexivity.
Qed.

Lemma sleep_until_early (s : state) (fuel : nat) (wakeup now d : Z) :
  ticks_to_nsec (_nw_nsecPerTick s) (current_tick P (instant s + 2)) = Some now ->
  CInt.sub_int64 wakeup now = Some d -> d < 0 ->
  lf_sleep_until_locked P fuel wakeup s = Ok (0, early_state P s).
Proof.
  intros Hnow Hd Hneg. unfold lf_sleep_until_locked.
  do 4 (erewrite bind_ok by reflexivity; cbv beta).
  set (s2 := set_critical_section _ _).
  assert (Hi2 : instant s2 = (instant s + 2)%nat).
  { unfold s2. rewrite !elapse_eq. simpl. lia. }
  assert (Hc2 : _nw_nsecPerTick s2 = _nw_nsecPerTick s).
  { unfold s2. rewrite !elapse_eq. reflexivity. }
  erewrite bind_ok
    by (apply lf_clock_gettime_ok; rewrite Hi2, Hc2; exact Hnow).
  cbv beta. cbn [snd].
  erewrite bind_ok by (unfold lift; rewrite Hd; reflexivity).
  cbv beta.
  replace (d <? 0) with true by (symmetry; apply Z.ltb_lt; exact Hneg).
  unfold ret. f_equal. f_equal.
  unfold s2, early_state. rewrite !elapse_eq. simpl.
  f_equal. lia.
Qed.

Lemma state_eq (s s' : state) :
  _lf_async_event s = _lf_async_event s' ->
  _nw_nsecPerTick s = _nw_nsecPerTick s' ->
  _critical_section s = _critical_section s' ->
  _critical_section_initialized s = _critical_section_initialized s' ->
  instant s = instant s' ->
  s = s'.
Proof.
  destruct s, s'. simpl. intros -> -> -> -> ->. reflexivity.
Qed.

Lemma sleep_until_slept (s : state) (n fuel : nat) (wakeup now d ticks : Z) :
  ticks_to_nsec (_nw_nsecPerTick s) (current_tick P (instant s + 2)) = Some now ->
  CInt.sub_int64 wakeup now = Some d -> 0 <= d ->
  nsec_to_ticks (_nw_nsecPerTick s) (CInt.to_unsigned 32 d) = Some ticks ->
  CInt.add_uint64 (current_tick P (instant s + 3)) ticks
    <= current_tick P (instant s + 3 + n) ->
  (n <= fuel)%nat ->
  exists k, (k <= n)%nat /\
    lf_sleep_until_locked P fuel wakeup s =
      Ok ((if notified_between P (S (instant s)) (k + 5) then -1 else 0),
          slept_state s k) /\
    CInt.add_uint64 (current_tick P (instant s + 3)) ticks
      <= current_tick P (instant s + 3 + k) /\
    forall j, (j < k)%nat ->
      current_tick P (instant s + 3 + j)
        < CInt.add_uint64 (current_tick P (instant s + 3)) ticks.
Proof.
  intros Hnow Hd Hpos Hticks Hreach Hfuel. unfold lf_sleep_until_locked.
  do 4 (erewrite bind_ok by reflexivity; cbv beta).
  set (s2 := set_critical_section _ _).
  assert (Hi2 : instant s2 = (instant s + 2)%nat).
  { unfold s2. rewrite !elapse_eq. simpl. lia. }
  assert (Hc2 : _nw_nsecPerTick s2 = _nw_nsecPerTick s).
  { unfold s2. rewrite !elapse_eq. reflexivity. }
  assert (Hf2 : _lf_async_event s2 = async_notify P (S (instant s))).
  { unfold s2. rewrite !elapse_eq. reflexivity. }
  assert (Hcs2 : _critical_section s2 = Nat.pred (_critical_section s) /\
                 _critical_section_initialized s2 = _critical_section_initialized s).
  { unfold s2. rewrite !elapse_eq. split; reflexivity. }
  erewrite bind_ok
    by (apply lf_clock_gettime_ok; rewrite Hi2, Hc2; exact Hnow).
  cbv beta. cbn [snd].
  erewrite bind_ok by (unfold lift; rewrite Hd; reflexivity).
  cbv beta.
  replace (d <? 0) with false by (symmetry; apply Z.ltb_ge; exact Hpos).
  set (s3 := elapse P s2).
  assert (Hi3 : instant s3 = (instant s + 3)%nat).
  { unfold s3. rewrite instant_elapse, Hi2. lia. }
  assert (Hc3 : _nw_nsecPerTick s3 = _nw_nsecPerTick s).
  { unfold s3. rewrite nsecPerTick_elapse. exact Hc2. }
  destruct (wait_nsec_reaches n fuel (CInt.to_unsigned 32 d) ticks s3)
    as (k & Hk & Hrun & Hreachk & Hmin).
  { rewrite Hc3. exact Hticks. }
  { rewrite Hi3. exact Hreach. }
  { exact Hfuel. }
  rewrite Hi3 in Hreachk, Hmin.
  exists k. split; [exact Hk | ]. split; [ | split; [exact Hreachk | exact Hmin]].
  erewrite bind_ok by exact Hrun. cbv beta.
  erewrite bind_ok by reflexivity. cbv beta.
  erewrite bind_ok by apply lf_critical_section_enter_ok. cbv beta.
  erewrite bind_ok by reflexivity. cbv beta.
  erewrite bind_ok by reflexivity. cbv beta.
  set (s4 := elapse_n P (S k) s3).
  assert (Hi4 : instant s4 = (instant s + k + 4)%nat).
  { unfold s4. rewrite elapse_n_instant, Hi3. lia. }
  assert (Hc4 : _nw_nsecPerTick s4 = _nw_nsecPerTick s).
  { unfold s4. rewrite elapse_n_nsecPerTick. exact Hc3. }
  assert (Hcs4 : _critical_section s4 = Nat.pred (_critical_section s) /\
                 _critical_section_initialized s4 = _critical_section_initialized s).
  { unfold s4. destruct (elapse_n_critical_section (S k) s3) as [-> ->].
    unfold s3. rewrite elapse_eq. exact Hcs2. }
  assert (Hf4 : _lf_async_event s4 =
                notified_between P (S (instant s)) (k + 3)).
  { unfold s4. rewrite elapse_n_async_event. unfold s3 at 1.
    rewrite elapse_eq. cbn [_lf_async_event]. rewrite Hf2, Hi2, Hi3.
    replace (k + 3)%nat with (2 + S k)%nat by lia.
    rewrite (notified_between_app _ 2 (S k)).
    replace (S (instant s) + 2)%nat with (instant s + 3)%nat by lia.
    f_equal. unfold notified_between. simpl.
    rewrite orb_false_r. f_equal. f_equal. f_equal. lia. }
  destruct Hcs4 as [Hcs4 Hci4]. clearbody s4.
  set (s6 := elapse P _).
  assert (Hf6 : _lf_async_event s6 =
                notified_between P (S (instant s)) (k + 5)).
  { unfold s6. rewrite !elapse_eq. cbn. rewrite Hf4, Hi4.
    replace (k + 5)%nat with ((k + 3) + 2)%nat by lia.
    rewrite (notified_between_app _ (k + 3) 2), <- orb_assoc. f_equal.
    unfold notified_between. cbn [seq existsb]. rewrite orb_false_r.
    f_equal; f_equal; lia. }
  rewrite Hf6.
  assert (Hrest : _nw_nsecPerTick s6 = _nw_nsecPerTick s /\
                  _critical_section s6 =
                    S (if _critical_section_initialized s
                       then Nat.pred (_critical_section s) else 0%nat) /\
                  _critical_section_initialized s6 = true /\
                  instant s6 = (instant s + k + 6)%nat).
  { unfold s6. rewrite !elapse_eq. cbn. rewrite Hc4, Hcs4, Hci4, Hi4.
    repeat split. lia. }
  destruct Hrest as (R1 & R2 & R3 & R4).
  destruct (notified_between P (S (instant s)) (k + 5)) eqn:Hnot.
  - erewrite bind_ok by reflexivity. unfold ret. do 2 f_equal.
    apply state_eq; simpl; auto.
  - unfold ret. do 2 f_equal.
    apply state_eq; simpl; auto.
Qed.
End WithPlatform.
End RunFacts.

(** ** Tags *)

Lemma lf_tag_compare_lt (a b : Tag.tag_t) :
  Tag.tag_lt a b <->
  Tag.time a < Tag.time b \/
  (Tag.time a = Tag.time b /\ Tag.microstep a < Tag.microstep b).
Proof.
  unfold Tag.tag_lt, Tag.lf_tag_compare.
  destruct (Z.ltb_spec (Tag.time a) (Tag.time b));
    destruct (Z.ltb_spec (Tag.time b) (Tag.time a));
    destruct (Z.ltb_spec (Tag.microstep a) (Tag.microstep b));
    destruct (Z.ltb_spec (Tag.microstep b) (Tag.microstep a));
    split; intros H'; try lia; try discriminate; try reflexivity.
Qed.

(** C5. Comparing the time first and the microstep next is a strict total
    order on tags, and whenever [(t, m)], [(t, m + 1)] and [(t + 1, 0)]
    are valid tags, [(t, m) < (t, m + 1) < (t + 1, 0)]. *)
Theorem tag_compare_strict_total_order :
  Tag.strict_total_order Tag.tag_lt /\
  forall t m : Z,
    Tag.valid {| Tag.time := t; Tag.microstep := m |} ->
    Tag.valid {| Tag.time := t; Tag.microstep := m + 1 |} ->
    Tag.valid {| Tag.time := t + 1; Tag.microstep := 0 |} ->
    Tag.tag_lt {| Tag.time := t; Tag.microstep := m |}
               {| Tag.time := t; Tag.microstep := m + 1 |} /\
    Tag.tag_lt {| Tag.time := t; Tag.microstep := m + 1 |}
               {| Tag.time := t + 1; Tag.microstep := 0 |}.
Proof.
  split; [split; [ | split] | ].
  - intros a Ha. apply lf_tag_compare_lt in Ha. lia.
  - intros a b c Hab Hbc. apply lf_tag_compare_lt in Hab, Hbc.
    apply lf_tag_compare_lt. lia.
  - intros [ta ma] [tb mb]. rewrite !lf_tag_compare_lt. simpl.
    destruct (Z.lt_trichotomy ta tb) as [H | [H | H]];
      destruct (Z.lt_trichotomy ma mb) as [H' | [H' | H']];
      subst; auto.
  - intros t m _ _ _. rewrite !lf_tag_compare_lt. simpl. lia.
Qed.

Lemma tag_compare_strict_total_order_witness :
  Tag.tag_lt {| Tag.time := 5; Tag.microstep := 0 |}
             {| Tag.time := 5; Tag.microstep := 0 + 1 |} /\
  Tag.tag_lt {| Tag.time := 5; Tag.microstep := 0 + 1 |}
             {| Tag.time := 5 + 1; Tag.microstep := 0 |}.
Proof.
  apply (proj2 tag_compare_strict_total_order 5 0);
    unfold Tag.valid; simpl; vm_compute; intuition discriminate.
Defined.

(** ** The tag-formatting macros *)

(** C4. [PRINTF_TIME] does not format a signed 64-bit instant: in
    [lf_solid_support.h] it is [%llu], which reads the time as an unsigned
    64-bit value, and in the second header it is a 32-bit unsigned
    conversion.  The tag NEVER is printed as another number with the
    first; with the second the 64-bit time is passed to a conversion that
    expects 32 bits, which is undefined.  [PRINTF_MICROSTEP] is an
    unsigned 32-bit conversion in both. *)
Theorem printf_time_reads_unsigned :
  Printf.conversions SolidHeader.PRINTF_TAG = Some [(false, 64); (false, 32)] /\
  Printf.conversions SolidHeader.PRINTF_TAG <> Some tag_field_types /\
  Printf.sprintf SolidHeader.PRINTF_TAG (tag_args Scenario.NEVER_TAG)
    = Some "(9223372036854775808, 0)"%string /\
  Printf.conversions PlatformHeader.PRINTF_TAG = Some [(false, 32); (false, 32)] /\
  Printf.sprintf PlatformHeader.PRINTF_TAG
      (tag_args {| Tag.time := 2 ^ 32 + 5; Tag.microstep := 3 |})
    = None /\
  Solid.printf [] PlatformHeader.PRINTF_TAG
      (tag_args {| Tag.time := 2 ^ 32 + 5; Tag.microstep := 3 |})
    = Undefined BadFormat /\
  Printf.conversions SolidHeader.PRINTF_MICROSTEP = Some [(false, 32)].
Proof.
  repeat split; try (vm_compute; reflexivity).
  vm_compute. discriminate.
Qed.

(** A signed 64-bit conversion would print the tag NEVER as it is. *)
Example printf_lld_prints_never :
  Printf.sprintf "(%lld, %u)" (tag_args Scenario.NEVER_TAG)
  = Some "(-9223372036854775808, 0)"%string.
Proof. vm_compute. reflexivity. Qed.

(** ** The console overrides *)

Lemma store_in_bounds (buf : list byte) (i : Z) (b : byte) :
  0 <= i < Z.of_nat (List.length buf) ->
  Solid.store buf i b = Ok (<[Z.to_nat i := b]> buf).
Proof.
  intros [H0 H1]. unfold Solid.store.
  apply Z.leb_le in H0. apply Z.ltb_lt in H1. rewrite H0, H1. reflexivity.
Qed.

Lemma store_out_of_bounds (buf : list byte) (i : Z) (b : byte) :
  Z.of_nat (List.length buf) <= i ->
  Solid.store buf i b = Undefined OutOfBoundsAccess.
Proof.
  intros H. unfold Solid.store.
  replace (i <? Z.of_nat (List.length buf)) with false
    by (symmetry; apply Z.ltb_ge; exact H).
  rewrite andb_false_r. reflexivity.
Qed.

Lemma vsnprintf_result (buf : list byte) (n : nat) (fmt out : string)
    (args : list Printf.arg) :
  Printf.sprintf fmt args = Some out -> (0 < n)%nat -> (n <= List.length buf)%nat ->
  exists buf',
    Printf.vsnprintf buf n fmt args
      = Some (Z.of_nat (List.length (list_byte_of_string out)), buf') /\
    List.length buf' = List.length buf.
Proof.
  intros Hout Hn Hlen. unfold Printf.vsnprintf. rewrite Hout.
  destruct n as [ | n]; [lia | ].
  eexists. split; [reflexivity | ].
  rewrite length_app. cbn [List.length]. rewrite length_drop, length_take.
  lia.
Qed.

Lemma vsnprintf_described (buf : list byte) (n : nat) (fmt out : string)
    (args : list Printf.arg) :
  Printf.sprintf fmt args = Some out ->
  Solid.vsnprintf buf n fmt args
    = defined BadFormat (Printf.vsnprintf buf n fmt args).
Proof.
  unfold Solid.vsnprintf, Printf.sprintf.
  destruct (Printf.parse fmt); [reflexivity | discriminate].
Qed.

Lemma local_buf_length (junk : list byte) :
  List.length (Solid.local_buf junk) = 1024%nat.
Proof. unfold Solid.local_buf. apply length_resize. Qed.

(** [lf_print] stays inside its buffer exactly when the expansion has at
    most 1022 characters. *)
Lemma lf_print_in_bounds_iff (junk : list byte) (fmt out : string)
    (args : list Printf.arg) :
  Printf.sprintf fmt args = Some out ->
  (exists log, Solid.lf_print junk fmt args = Ok log) <->
  (List.length (list_byte_of_string out) <= 1022)%nat.
Proof.
  intros Hout.
  destruct (vsnprintf_result (Solid.local_buf junk) 1024 fmt out args Hout)
    as (buf' & Hv & Hlen); [lia | rewrite local_buf_length; lia | ].
  rewrite local_buf_length in Hlen.
  unfold Solid.lf_print. rewrite (vsnprintf_described _ _ _ _ _ Hout), Hv.
  cbn [defined result_bind].
  set (len := List.length (list_byte_of_string out)).
  destruct (Nat.le_gt_cases len 1022) as [Hle | Hgt].
  - rewrite store_in_bounds by lia. cbn [result_bind].
    rewrite store_in_bounds by (rewrite length_insert; lia).
    cbn [result_bind]. split; [intros _; exact Hle | intros _; eexists; reflexivity].
  - split; [ | lia]. intros [log Hlog]. exfalso.
    destruct (Nat.eq_dec len 1023) as [Heq | Hne].
    + rewrite store_in_bounds in Hlog by lia. cbn [result_bind] in Hlog.
      rewrite store_out_of_bounds in Hlog by (rewrite length_insert; lia).
      discriminate.
    + rewrite store_out_of_bounds in Hlog by lia. discriminate.
Qed.

(** [printf] stays inside its buffer exactly when the expansion has at
    most 1023 characters. *)
Lemma printf_in_bounds_iff (junk : list byte) (fmt out : string)
    (args : list Printf.arg) :
  Printf.sprintf fmt args = Some out ->
  (exists r, Solid.printf junk fmt args = Ok r) <->
  (List.length (list_byte_of_string out) <= 1023)%nat.
Proof.
  intros Hout.
  destruct (vsnprintf_result (Solid.local_buf junk) 1024 fmt out args Hout)
    as (buf' & Hv & Hlen); [lia | rewrite local_buf_length; lia | ].
  rewrite local_buf_length in Hlen.
  unfold Solid.printf. rewrite (vsnprintf_described _ _ _ _ _ Hout), Hv.
  cbn [defined result_bind].
  set (len := List.length (list_byte_of_string out)).
  destruct (Nat.le_gt_cases len 1023) as [Hle | Hgt].
  - rewrite store_in_bounds by lia. cbn [result_bind].
    split; [intros _; exact Hle | intros _; eexists; reflexivity].
  - split; [ | lia]. intros [r Hr]. exfalso.
    rewrite store_out_of_bounds in Hr by lia. discriminate.
Qed.

(** A format with a conversion outside the description of the C library
    gets no verdict. *)
Example printf_format_not_described :
  Solid.printf [] "%x" [Printf.ArgInt 255] = NotDescribed /\
  Solid.lf_print [] "%5d" [Printf.ArgInt 255] = NotDescribed.
Proof. split; vm_compute; reflexivity. Qed.

(** C9. The stores of [lf_print] and [printf] do leave the 1024-byte
    buffer: [vsnprintf] returns the length of the whole expansion, so an
    expansion of 1023 characters puts the NUL of [lf_print] at index
    1024, and one of 1024 characters puts the NUL of [printf] there. *)
Theorem lf_print_store_out_of_bounds :
  Solid.lf_print [] "%s" [Printf.ArgStr (Scenario.long_string 1023)]
    = Undefined OutOfBoundsAccess /\
  Solid.printf [] "%s" [Printf.ArgStr (Scenario.long_string 1024)]
    = Undefined OutOfBoundsAccess.
Proof. split; vm_compute; reflexivity. Qed.

(** ** The [calloc] override *)

Lemma calloc_result (size_bits : Z) (A : Heap.allocator) (n size : Z)
    (h : gmap positive (list byte)) :
  let total := CInt.to_unsigned size_bits (n * size) in
  (Heap.alloc_fails A h total = true /\
   Heap.calloc size_bits A n size h = Ok (NULL, h)) \/
  (Heap.alloc_fails A h total = false /\
   exists b,
     h !! b = None /\
     Heap.calloc size_bits A n size h
       = Ok (Addr b, <[b := replicate (Z.to_nat total) x00]> h)).
Proof.
  intros total. unfold Heap.calloc, Heap.malloc. fold total.
  destruct (Heap.alloc_fails A h total);
    [left; split; reflexivity | right; split; [reflexivity | ]].
  set (b := fresh (dom h)).
  assert (Hfresh : h !! b = None).
  { apply not_elem_of_dom. unfold b. apply is_fresh. }
  exists b. split; [exact Hfresh | ].
  cbn [is_null negb]. unfold Heap.memset.
  rewrite lookup_insert_eq, length_resize.
  replace (total <=? Z.of_nat (Z.to_nat total)) with true
    by (symmetry; apply Z.leb_le; lia).
  cbn [result_bind]. rewrite insert_insert_eq.
  rewrite drop_ge by (rewrite length_resize; lia).
  rewrite app_nil_r. reflexivity.
Qed.

(** C10. [calloc(n, size)] returns NULL, the heap unchanged, when
    [malloc] fails, and otherwise a fresh block whose bytes are all zero.
    The byte count [total] is the product [n * size] computed in [size_t]
    with no overflow guard, which is [n * size] itself whenever the
    product does not overflow. *)
Theorem calloc_zeroes_block (size_bits : Z) (A : Heap.allocator) (n size : Z)
    (h : gmap positive (list byte)) :
  let total := CInt.to_unsigned size_bits (n * size) in
  (0 <= n -> 0 <= size -> n * size < 2 ^ size_bits -> total = n * size) /\
  ((Heap.alloc_fails A h total = true /\
    Heap.calloc size_bits A n size h = Ok (NULL, h)) \/
   (Heap.alloc_fails A h total = false /\
    exists b blk,
      h !! b = None /\
      Heap.calloc size_bits A n size h = Ok (Addr b, <[b := blk]> h) /\
      List.length blk = Z.to_nat total /\
      forall i x, blk !! i = Some x -> x = x00)).
Proof.
  intros total. split.
  - intros Hn Hsize Hno. unfold total, CInt.to_unsigned.
    apply Z.mod_small. nia.
  - destruct (calloc_result size_bits A n size h)
      as [Hnull | (Hok & b & Hfresh & Hrun)]; [left; exact Hnull | right].
    split; [exact Hok | ].
    exists b, (replicate (Z.to_nat total) x00).
    split; [exact Hfresh | ]. split; [exact Hrun | ]. split.
    + apply length_replicate.
    + intros i x Hi. apply lookup_replicate in Hi. tauto.
Qed.

Lemma calloc_zeroes_block_witness :
  CInt.to_unsigned 32 (2 * 3) = 2 * 3 /\
  exists b blk,
    Heap.calloc 32 (Scenario.junk_allocator [x01; x02; x03]) 2 3 ∅
      = Ok (Addr b, <[b := blk]> ∅) /\
    List.length blk = 6%nat /\
    forall i x, blk !! i = Some x -> x = x00.
Proof.
  destruct (calloc_zeroes_block 32 (Scenario.junk_allocator [x01; x02; x03]) 2 3 ∅)
    as [Htotal [[Hfail _] | (_ & b & blk & _ & Hrun & Hlen & Hzero)]].
  - discriminate Hfail.
  - split; [apply Htotal; lia | ].
    exists b, blk. split; [exact Hrun | split; [exact Hlen | exact Hzero]].
Defined.

(** With a 32-bit [size_t], [calloc(2 ^ 31, 2)] asks [malloc] for no
    bytes at all and succeeds. *)
Example calloc_product_wraps :
  Heap.calloc 32 (Scenario.junk_allocator []) (2 ^ 31) 2 ∅
  = Ok (Addr 1, <[1%positive := []]> ∅).
Proof. vm_compute. reflexivity. Qed.

(** ** The clock *)

Lemma nsec_per_tick_nonneg (tps : Z) : Double.nonneg (Solid.nsec_per_tick tps).
Proof.
  unfold Solid.nsec_per_tick. rewrite ClockFacts.of_Z_giga.
  destruct (Double.of_Z tps) as [m e | | ]; simpl; try exact I; [ | lia].
  destruct (m =? 0); simpl; [exact I | apply DoubleFacts.round_nonneg].
Qed.

Lemma lf_initialize_clock_ok (P : Solid.platform) (s : Solid.state) :
  exists s', Solid.lf_initialize_clock P s = Ok (tt, s') /\
             Solid.clock_initialized P s'.
Proof.
  eexists. split; [reflexivity | ].
  unfold Solid.clock_initialized. reflexivity.
Qed.

Lemma lf_clock_gettime_inv (P : Solid.platform) (t : pointer) (s s' : Solid.state)
    (r v : Z) :
  Solid.lf_clock_gettime P t s = Ok ((r, v), s') ->
  t <> NULL /\ r = 0 /\ s' = Solid.elapse P s /\
  Solid.ticks_to_nsec (Solid._nw_nsecPerTick s)
    (Solid.current_tick P (Solid.instant s)) = Some v.
Proof.
  unfold Solid.lf_clock_gettime, Solid.bind, Solid.solid_cs_assert,
    Solid.SOLID_TIMER_GetCurrentTick, Solid.get, Solid.lift, Solid.ret.
  destruct t as [ | b]; cbn [is_null negb]; [discriminate | ].
  rewrite RunFacts.nsecPerTick_elapse.
  destruct (Solid.ticks_to_nsec _ _) as [v' | ]; cbn [defined result_bind];
    [ | discriminate].
  intros H. injection H as <- <- <-. repeat split. discriminate.
Qed.

Lemma ticks_to_nsec_range (c : Double.double) (tick v : Z) :
  Solid.ticks_to_nsec c tick = Some v -> v < 2 ^ 63.
Proof.
  unfold Solid.ticks_to_nsec, Double.to_Z.
  destruct (Double.mul _ _) as [m e | | ]; try discriminate.
  destruct (_ <? _) eqn:Hlt; [ | discriminate].
  intros H. injection H as <-. apply Z.ltb_lt. exact Hlt.
Qed.

Lemma scaled_tick_nonneg (tps tick v : Z) :
  0 < tps -> 0 <= tick -> Solid.scaled_tick tps tick v -> 0 <= v.
Proof. unfold Solid.scaled_tick. intros Htps Htick [_ H]. nia. Qed.

(** Not every call on an initialised clock and a counter that does not
    decrease returns: at 1 GHz with the counter at [2 ^ 63] the scaled
    tick does not fit [instant_t] and the conversion is undefined. *)
Lemma lf_clock_gettime_out_of_range :
  Addr 1 <> NULL /\
  Solid.clock_initialized (Scenario.late_platform Scenario.GHz)
    (Scenario.locked_state Scenario.GHz 0) /\
  (forall i j, (i <= j)%nat ->
     0 <= Solid.current_tick (Scenario.late_platform Scenario.GHz) i
       <= Solid.current_tick (Scenario.late_platform Scenario.GHz) j) /\
  (forall i, Solid.current_tick (Scenario.late_platform Scenario.GHz) i < 2 ^ 64) /\
  Solid.lf_clock_gettime (Scenario.late_platform Scenario.GHz) (Addr 1)
    (Scenario.locked_state Scenario.GHz 0)
  = Undefined OutOfRangeConversion.
Proof.
  split; [discriminate | ]. split; [reflexivity | ].
  split; [ | split].
  - intros i j Hij. cbn [Solid.current_tick Scenario.late_platform]. lia.
  - intros i. cbn [Solid.current_tick Scenario.late_platform]. lia.
  - vm_compute. reflexivity.
Qed.

(** C6. Once [lf_initialize_clock] has run, with a tick rate that is
    positive, and as long as the 64-bit tick counter does not decrease, every
    call of [lf_clock_gettime] with a non-null pointer whose scaled tick
    fits [instant_t] returns 0 and stores the instant computed from the
    counter read at that moment, [tick * 10 ^ 9 / rate] cut to a whole
    number of nanoseconds, up to a relative error of [2 ^ -50]; it does
    nothing else than let the instant go by.  Every earlier call has
    done the same, with an instant that is not larger.  The scaled tick
    fits, and the call returns, whenever the tick rate is at least
    [10 ^ 9 / 2 ^ a] and the counter is at most [2 ^ b] with
    [a + b <= 62]. *)
Theorem lf_clock_gettime_monotonic (P : Solid.platform) (t : pointer)
    (s1 s2 : Solid.state) :
  t <> NULL ->
  (forall i j, (i <= j)%nat -> 0 <= Solid.current_tick P i <= Solid.current_tick P j) ->
  0 < Solid.ticks_per_sec P < 2 ^ 64 ->
  Solid.clock_initialized P s1 -> Solid.clock_initialized P s2 ->
  (Solid.instant s1 <= Solid.instant s2)%nat ->
  Solid.current_tick P (Solid.instant s2) < 2 ^ 64 ->
  (forall r2 v2 s2',
      Solid.lf_clock_gettime P t s2 = Ok ((r2, v2), s2') ->
      r2 = 0 /\ s2' = Solid.elapse P s2 /\
      Solid.scaled_tick (Solid.ticks_per_sec P)
        (Solid.current_tick P (Solid.instant s2)) v2 /\
      v2 < 2 ^ 63 /\
      exists v1,
        Solid.lf_clock_gettime P t s1 = Ok ((0, v1), Solid.elapse P s1) /\
        Solid.scaled_tick (Solid.ticks_per_sec P)
          (Solid.current_tick P (Solid.instant s1)) v1 /\
        0 <= v1 <= v2) /\
  (forall a b,
      0 <= a -> 0 <= b -> a + b <= 62 ->
      10 ^ 9 <= 2 ^ a * Solid.ticks_per_sec P ->
      Solid.current_tick P (Solid.instant s2) <= 2 ^ b ->
      exists v2,
        Solid.lf_clock_gettime P t s2 = Ok ((0, v2), Solid.elapse P s2)).
Proof.
  intros Ht Hmono Htps Hc1 Hc2 Hle Hbound.
  destruct t as [ | p]; [congruence | ].
  pose proof (Hmono _ _ Hle) as [Ht1 Ht12].
  unfold Solid.clock_initialized in Hc1, Hc2. split.
  - intros r2 v2 s2' Hrun.
    apply lf_clock_gettime_inv in Hrun. destruct Hrun as (_ & -> & -> & Hv2).
    rewrite Hc2 in Hv2.
    destruct (ClockFacts.ticks_to_nsec_mono _
                (Solid.current_tick P (Solid.instant s1)) _ v2
                (nsec_per_tick_nonneg _) Ht12 Hv2)
      as (v1 & Hv1 & Hv).
    pose proof (RoundingError.ticks_to_nsec_accurate (Solid.ticks_per_sec P)
                  (Solid.current_tick P (Solid.instant s1)) v1 Htps
                  ltac:(lia) Hv1) as Hacc1.
    pose proof (RoundingError.ticks_to_nsec_accurate (Solid.ticks_per_sec P)
                  (Solid.current_tick P (Solid.instant s2)) v2 Htps
                  ltac:(lia) Hv2) as Hacc2.
    split; [reflexivity | ]. split; [reflexivity | ]. split; [exact Hacc2 | ].
    split; [exact (ticks_to_nsec_range _ _ _ Hv2) | ].
    exists v1.
    split; [apply RunFacts.lf_clock_gettime_ok; rewrite Hc1; exact Hv1 | ].
    split; [exact Hacc1 | ]. split; [ | exact Hv].
    exact (scaled_tick_nonneg _ _ _ (proj1 Htps) Ht1 Hacc1).
  - intros a b Ha Hb Hab Hrate Htick.
    destruct (ClockFacts.nsec_per_tick_bounds (Solid.ticks_per_sec P) a
                ltac:(lia) Hrate) as [Hn Hbd].
    destruct (ClockFacts.ticks_to_nsec_defined _ a b
                (Solid.current_tick P (Solid.instant s2)) Hn Hbd Ha Hb Hab)
      as [v2 Hv2]; [lia | ].
    exists v2. apply RunFacts.lf_clock_gettime_ok. rewrite Hc2. exact Hv2.
Qed.

Lemma lf_clock_gettime_monotonic_witness :
  let P := Scenario.counting_platform 24000000 Scenario.never in
  let s1 := Scenario.locked_state 24000000 3 in
  let s2 := Scenario.locked_state 24000000 7 in
  exists v1 v2,
    Solid.lf_clock_gettime P (Addr 1) s1 = Ok ((0, v1), Solid.elapse P s1) /\
    Solid.lf_clock_gettime P (Addr 1) s2 = Ok ((0, v2), Solid.elapse P s2) /\
    Solid.scaled_tick 24000000 3 v1 /\
    Solid.scaled_tick 24000000 7 v2 /\
    0 <= v1 <= v2 /\ v2 < 2 ^ 63.
Proof.
  intros P s1 s2.
  destruct (lf_clock_gettime_monotonic P (Addr 1) s1 s2) as [Hmono Hdef].
  - discriminate.
  - intros i j Hij. simpl. lia.
  - split; vm_compute; reflexivity.
  - reflexivity.
  - reflexivity.
  - simpl. lia.
  - vm_compute. reflexivity.
  - destruct (Hdef 6 3) as (v2 & Hrun2); try lia.
    + vm_compute. discriminate.
    + vm_compute. discriminate.
    + destruct (Hmono 0 v2 _ Hrun2) as (_ & _ & Hacc2 & Hv2 & v1 & Hrun1 & Hacc1 & Hv).
      exists v1, v2.
      split; [exact Hrun1 | ]. split; [exact Hrun2 | ].
      split; [exact Hacc1 | ]. split; [exact Hacc2 | ].
      split; [exact Hv | exact Hv2].
Defined.

(** At 24 MHz the instants read at ticks 3 and 7 are 125 ns and 291 ns. *)
Example lf_clock_gettime_24MHz :
  let P := Scenario.counting_platform 24000000 Scenario.never in
  Solid.lf_clock_gettime P (Addr 1) (Scenario.locked_state 24000000 3)
    = Ok ((0, 125), Scenario.locked_state 24000000 4) /\
  Solid.lf_clock_gettime P (Addr 1) (Scenario.locked_state 24000000 7)
    = Ok ((0, 291), Scenario.locked_state 24000000 8).
Proof. split; vm_compute; reflexivity. Qed.

(** ** The sleep *)

(** Starting the runtime: the clock is initialised and the critical
    section entered. *)
Example runtime_start :
  let P := Scenario.counting_platform Scenario.GHz Scenario.never in
  Solid.bind (Solid.lf_initialize_clock P)
    (fun _ => Solid.lf_critical_section_enter) Solid.initial_state
  = Ok (0, Scenario.locked_state Scenario.GHz 0).
Proof. vm_compute. reflexivity. Qed.

(** C1. When [lf_sleep_until_locked] waits for a wakeup time that has not
    passed, it returns -1 if [lf_notify_of_event] is called at some
    instant after the flag was reset and before the flag is read, and 0
    if it is called at none of these instants.  The call entered at
    instant [i] resets the flag during instant [i] and busy-waits from
    instant [i + 3]; [k] being the first turn at which the counter has
    reached the deadline, it reads the flag during instant [i + k + 5]
    and returns at instant [i + k + 6], the flag cleared and the
    critical section entered again.  The instants that count are those
    from [i + 1] to [i + k + 5]: a notification at any of them, among
    them all the instants of the busy-wait, gives -1. *)
Theorem lf_sleep_until_locked_reports_async_event
    (P : Solid.platform) (s : Solid.state) (n fuel : nat)
    (wakeup now d ticks : Z) :
  let deadline :=
    CInt.add_uint64 (Solid.current_tick P (Solid.instant s + 3)) ticks in
  Solid.ticks_to_nsec (Solid._nw_nsecPerTick s)
    (Solid.current_tick P (Solid.instant s + 2)) = Some now ->
  CInt.sub_int64 wakeup now = Some d ->
  0 <= d ->
  Solid.nsec_to_ticks (Solid._nw_nsecPerTick s) (CInt.to_unsigned 32 d)
    = Some ticks ->
  deadline <= Solid.current_tick P (Solid.instant s + 3 + n) ->
  (n <= fuel)%nat ->
  exists (k : nat) (r : Z),
    (k <= n)%nat /\
    deadline <= Solid.current_tick P (Solid.instant s + 3 + k) /\
    (forall j, (j < k)%nat ->
               Solid.current_tick P (Solid.instant s + 3 + j) < deadline) /\
    Solid.lf_sleep_until_locked P fuel wakeup s
      = Ok (r, {| Solid._lf_async_event := false;
                  Solid._nw_nsecPerTick := Solid._nw_nsecPerTick s;
                  Solid._critical_section :=
                    S (if Solid._critical_section_initialized s
                       then Nat.pred (Solid._critical_section s) else 0%nat);
                  Solid._critical_section_initialized := true;
                  Solid.instant := (Solid.instant s + k + 6)%nat |}) /\
    ((exists i, (Solid.instant s < i < Solid.instant s + k + 6)%nat /\
                Solid.async_notify P i = true) <-> r = -1) /\
    ((forall i, (Solid.instant s < i < Solid.instant s + k + 6)%nat ->
                Solid.async_notify P i = false) <-> r = 0).
Proof.
  intros deadline Hnow Hd Hpos Hticks Hreach Hfuel.
  destruct (RunFacts.sleep_until_slept P s n fuel wakeup now d ticks
              Hnow Hd Hpos Hticks Hreach Hfuel)
    as (k & Hkn & Hrun & Hk & Hmin).
  exists k. eexists.
  split; [exact Hkn | ]. split; [exact Hk | ]. split; [exact Hmin | ].
  split; [exact Hrun | ].
  destruct (Solid.notified_between P (S (Solid.instant s)) (k + 5)) eqn:Hnot.
  - apply RunFacts.notified_between_true in Hnot.
    destruct Hnot as (j & Hj & Hjn). split; split.
    + reflexivity.
    + intros _. exists j. split; [lia | exact Hjn].
    + intros Hnone. rewrite Hnone in Hjn by lia. discriminate.
    + discriminate.
  - assert (Hnone : forall i, (Solid.instant s < i < Solid.instant s + k + 6)%nat ->
                              Solid.async_notify P i = false).
    { intros i Hi. destruct (Solid.async_notify P i) eqn:Hin; [ | reflexivity].
      assert (Hex : Solid.notified_between P (S (Solid.instant s)) (k + 5) = true).
      { apply RunFacts.notified_between_true. exists i. split; [lia | exact Hin]. }
      congruence. }
    split; split.
    + intros (i & Hi & Hin). rewrite Hnone in Hin by exact Hi. discriminate.
    + discriminate.
    + reflexivity.
    + intros _. exact Hnone.
Qed.

Lemma lf_sleep_until_locked_reports_async_event_witness :
  let P := Scenario.counting_platform Scenario.GHz (Scenario.at_instant 5) in
  let s := Scenario.locked_state Scenario.GHz 0 in
  exists (k : nat) (r : Z),
    (k <= 48)%nat /\
    CInt.add_uint64 (Solid.current_tick P 3) 48
      <= Solid.current_tick P (3 + k) /\
    (forall j, (j < k)%nat ->
               Solid.current_tick P (3 + j)
                 < CInt.add_uint64 (Solid.current_tick P 3) 48) /\
    Solid.lf_sleep_until_locked P 60 50 s
      = Ok (r, Scenario.locked_state Scenario.GHz (k + 6)) /\
    ((exists i, (0 < i < k + 6)%nat /\ Solid.async_notify P i = true) <-> r = -1) /\
    ((forall i, (0 < i < k + 6)%nat -> Solid.async_notify P i = false) <-> r = 0).
Proof.
  intros P s.
  apply (lf_sleep_until_locked_reports_async_event P s 48 60 50 2 48 48).
  - vm_compute. reflexivity.
  - vm_compute. reflexivity.
  - lia.
  - vm_compute. reflexivity.
  - vm_compute. discriminate.
  - lia.
Defined.

(** The notification of instant 5 makes the call return -1; without it
    the call returns 0. *)
Example lf_sleep_until_locked_returns :
  Solid.lf_sleep_until_locked
    (Scenario.counting_platform Scenario.GHz (Scenario.at_instant 5)) 48 50
    (Scenario.locked_state Scenario.GHz 0)
    = Ok (-1, Scenario.locked_state Scenario.GHz 54) /\
  Solid.lf_sleep_until_locked
    (Scenario.counting_platform Scenario.GHz Scenario.never) 48 50
    (Scenario.locked_state Scenario.GHz 0)
    = Ok (0, Scenario.locked_state Scenario.GHz 54).
Proof. split; vm_compute; reflexivity. Qed.

Lemma first_reach_unique (f : nat -> Z) (u : Z) (k k' : nat) :
  u <= f k -> (forall j, (j < k)%nat -> f j < u) ->
  u <= f k' -> (forall j, (j < k')%nat -> f j < u) ->
  k = k'.
Proof.
  intros Hk Hmin Hk' Hmin'.
  destruct (Nat.lt_trichotomy k k') as [Hlt | [Heq | Hgt]]; [ | exact Heq | ].
  - specialize (Hmin' k Hlt). lia.
  - specialize (Hmin k' Hgt). lia.
Qed.

(** X10. The instant at which the sleep returns, and the state it returns in,
    are the same whatever notifications arrive: the busy-wait runs until
    the tick counter reaches its deadline. *)
Lemma sleep_ignores_notifications
    (P P' : Solid.platform) (s : Solid.state) (n : nat) (wakeup now d ticks : Z) :
  (forall i, Solid.current_tick P' i = Solid.current_tick P i) ->
  Solid.ticks_to_nsec (Solid._nw_nsecPerTick s)
    (Solid.current_tick P (Solid.instant s + 2)) = Some now ->
  CInt.sub_int64 wakeup now = Some d ->
  0 <= d ->
  Solid.nsec_to_ticks (Solid._nw_nsecPerTick s) (CInt.to_unsigned 32 d)
    = Some ticks ->
  CInt.add_uint64 (Solid.current_tick P (Solid.instant s + 3)) ticks
    <= Solid.current_tick P (Solid.instant s + 3 + n) ->
  exists r r' s',
    Solid.lf_sleep_until_locked P n wakeup s = Ok (r, s') /\
    Solid.lf_sleep_until_locked P' n wakeup s = Ok (r', s') /\
    CInt.add_uint64 (Solid.current_tick P (Solid.instant s + 3)) ticks
      <= Solid.current_tick P (Solid.instant s' - 3).
Proof.
  intros Hsame Hnow Hd Hpos Hticks Hreach.
  destruct (RunFacts.sleep_until_slept P s n n wakeup now d ticks
              Hnow Hd Hpos Hticks Hreach (Nat.le_refl n))
    as (k & _ & Hrun & Hk & Hmin).
  destruct (RunFacts.sleep_until_slept P' s n n wakeup now d ticks)
    as (k' & _ & Hrun' & Hk' & Hmin');
    rewrite ?Hsame; try assumption; try lia.
  rewrite !Hsame in Hk'.
  assert (Heq : k = k').
  { apply (first_reach_unique
             (fun j => Solid.current_tick P (Solid.instant s + 3 + j))
             (CInt.add_uint64 (Solid.current_tick P (Solid.instant s + 3)) ticks));
      try assumption.
    intros j Hj. specialize (Hmin' j Hj). rewrite !Hsame in Hmin'. exact Hmin'. }
  subst k'. do 2 eexists. exists (Solid.slept_state s k).
  split; [exact Hrun | split; [exact Hrun' | ]].
  cbn [Solid.slept_state Solid.instant].
  replace (Solid.instant s + k + 6 - 3)%nat with (Solid.instant s + 3 + k)%nat by lia.
  exact Hk.
Qed.

(** X11. A wakeup time [2 ^ 32] ns later makes no difference: the duration
    reaches [wait_nsec] reduced modulo [2 ^ 32]. *)
Lemma sleep_duration_wraps
    (P : Solid.platform) (s : Solid.state) (n : nat) (wakeup now d ticks : Z) :
  Solid.ticks_to_nsec (Solid._nw_nsecPerTick s)
    (Solid.current_tick P (Solid.instant s + 2)) = Some now ->
  CInt.sub_int64 wakeup now = Some d ->
  CInt.sub_int64 (wakeup + 2 ^ 32) now = Some (d + 2 ^ 32) ->
  0 <= d ->
  Solid.nsec_to_ticks (Solid._nw_nsecPerTick s) (CInt.to_unsigned 32 d)
    = Some ticks ->
  CInt.add_uint64 (Solid.current_tick P (Solid.instant s + 3)) ticks
    <= Solid.current_tick P (Solid.instant s + 3 + n) ->
  Solid.lf_sleep_until_locked P n (wakeup + 2 ^ 32) s
  = Solid.lf_sleep_until_locked P n wakeup s.
Proof.
  intros Hnow Hd Hd' Hpos Hticks Hreach.
  assert (Hwrap : CInt.to_unsigned 32 (d + 2 ^ 32) = CInt.to_unsigned 32 d).
  { unfold CInt.to_unsigned.
    rewrite <- (Z.mul_1_l (2 ^ 32)) at 1. apply Z.mod_add. lia. }
  destruct (RunFacts.sleep_until_slept P s n n wakeup now d ticks
              Hnow Hd Hpos Hticks Hreach (Nat.le_refl n))
    as (k & _ & Hrun & Hk & Hmin).
  destruct (RunFacts.sleep_until_slept P s n n (wakeup + 2 ^ 32) now
              (d + 2 ^ 32) ticks Hnow Hd' ltac:(lia)
              ltac:(rewrite Hwrap; exact Hticks) Hreach (Nat.le_refl n))
    as (k' & _ & Hrun' & Hk' & Hmin').
  assert (Heq : k = k').
  { exact (first_reach_unique
             (fun j => Solid.current_tick P (Solid.instant s + 3 + j))
             _ k k' Hk Hmin Hk' Hmin'). }
  subst k'. rewrite Hrun, Hrun'. reflexivity.
Qed.

(** C2. A notification does not end the sleep early.  On a 1 GHz counter
    a sleep until 1000 ns entered at instant 0 returns at instant 1004
    whether or not [lf_notify_of_event] is called at instant 5; the
    notification only changes the value returned. *)
Theorem notification_does_not_end_sleep :
  Solid.lf_sleep_until_locked
    (Scenario.counting_platform Scenario.GHz (Scenario.at_instant 5)) 998 1000
    (Scenario.locked_state Scenario.GHz 0)
    = Ok (-1, Scenario.locked_state Scenario.GHz 1004) /\
  Solid.lf_sleep_until_locked
    (Scenario.counting_platform Scenario.GHz Scenario.never) 998 1000
    (Scenario.locked_state Scenario.GHz 0)
    = Ok (0, Scenario.locked_state Scenario.GHz 1004).
Proof. split; vm_compute; reflexivity. Qed.

(** C3. The sleep duration is cut to its low 32 bits.  On a 1 GHz
    counter, a sleep entered at instant 10 until [2 ^ 32 + 12] ns, which
    is [2 ^ 32] ns after the clock is read, returns 0 at instant 16 when
    the clock reads 16 ns. *)
Theorem sleep_duration_truncated_to_32_bits :
  let P := Scenario.counting_platform Scenario.GHz Scenario.never in
  Solid.lf_sleep_until_locked P 0 (2 ^ 32 + 12) (Scenario.locked_state Scenario.GHz 10)
    = Ok (0, Scenario.locked_state Scenario.GHz 16) /\
  Solid.lf_clock_gettime P (Addr 1) (Scenario.locked_state Scenario.GHz 16)
    = Ok ((0, 16), Scenario.locked_state Scenario.GHz 17) /\
  16 < 2 ^ 32 + 12.
Proof. repeat split; vm_compute; reflexivity. Qed.

(** C8. When the wakeup time has passed, [lf_sleep_until_locked] returns
    without entering the critical section again: entered at instant 10
    with the section held once and a wakeup time of 0, it returns with
    the section not held. *)
Theorem sleep_in_the_past_leaves_critical_section :
  let P := Scenario.counting_platform Scenario.GHz Scenario.never in
  Solid._critical_section (Scenario.locked_state Scenario.GHz 10) = 1%nat /\
  Solid.lf_sleep_until_locked P 0 0 (Scenario.locked_state Scenario.GHz 10)
    = Ok (0, Solid.set_critical_section 0 (Scenario.locked_state Scenario.GHz 13)).
Proof. split; vm_compute; reflexivity. Qed.

(** On the path that waits, the section is entered again. *)
Lemma slept_state_critical_section (s : Solid.state) (k : nat) :
  Solid._critical_section_initialized s = true ->
  (0 < Solid._critical_section s)%nat ->
  Solid._critical_section (Solid.slept_state s k) = Solid._critical_section s.
Proof.
  intros Hinit Hheld. cbn [Solid.slept_state Solid._critical_section].
  rewrite Hinit. lia.
Qed.

(** On the path that returns at once, it is left one level lower, for
    every platform and state. *)
Lemma early_state_critical_section (P : Solid.platform) (s : Solid.state) :
  Solid._critical_section (Solid.early_state P s)
  = Nat.pred (Solid._critical_section s).
Proof. reflexivity. Qed.

(** * Further properties of the platform layer *)

(** ** Conversions at the edges *)

Module EdgeFacts.
Import Double DoubleFacts DoubleBounds ClockFacts Solid.
Local Open Scope Q_scope.

Lemma F2Q_zero (e : Z) : F2Q 0 e == 0.
Proof. unfold F2Q. change (inject_Z 0) with 0. ring. Qed.

(** A conversion from an integer is never a NaN. *)
Lemma of_Z_cases (z : Z) :
  (exists m e, of_Z z = DFin m e /\ (0 <= m)%Z) \/ of_Z z = DInf.
Proof.
  pose proof (round_nonneg (inject_Z z)) as Hn.
  pose proof (round_not_nan (inject_Z z)) as Hnan.
  unfold of_Z. destruct (round (inject_Z z)) as [m e | | ].
  - left. exists m, e. split; [reflexivity | exact Hn].
  - right. reflexivity.
  - congruence.
Qed.

(** Dividing by the zero a static [double] holds gives an infinity or a
    NaN, which no integer conversion accepts. *)
Lemma nsec_to_ticks_by_zero (nsec : Z) : nsec_to_ticks (DFin 0 0) nsec = None.
Proof.
  unfold nsec_to_ticks.
  destruct (of_Z_cases nsec) as [(m & e & -> & _) | ->]; simpl.
  - destruct (m =? 0)%Z; reflexivity.
  - reflexivity.
Qed.

Lemma ticks_to_nsec_by_infinity (tick : Z) : ticks_to_nsec DInf tick = None.
Proof.
  unfold ticks_to_nsec.
  destruct (of_Z_cases tick) as [(m & e & -> & _) | ->]; simpl.
  - destruct (m =? 0)%Z; reflexivity.
  - reflexivity.
Qed.

Lemma nsec_per_tick_nonpositive (tps : Z) : (tps <= 0)%Z -> nsec_per_tick tps = DInf.
Proof.
  intros H. unfold nsec_per_tick. rewrite of_Z_giga.
  unfold of_Z. rewrite round_zero; [reflexivity | ].
  change 0 with (inject_Z 0). rewrite <- Zle_Qle. exact H.
Qed.

Lemma of_Z_uint64_finite (z : Z) :
  (z < 2 ^ 64)%Z -> exists m e, of_Z z = DFin m e /\ (0 <= m)%Z.
Proof.
  intros Hz.
  assert (Hb : bounded_above (of_Z z) (F2Q 1 64)).
  { apply round_bounded_above; [ | lia | unfold emin; lia | ].
    - rewrite F2Q_one, (pow2_inject 64) by lia. rewrite <- Zle_Qle. lia.
    - rewrite F2Q_one. apply pow2_lt. unfold emax. lia. }
  destruct (of_Z_cases z) as [H | H]; [exact H | ].
  rewrite H in Hb. contradiction.
Qed.

Lemma ticks_to_nsec_by_zero (tick : Z) :
  (tick < 2 ^ 64)%Z -> ticks_to_nsec (DFin 0 0) tick = Some 0%Z.
Proof.
  intros Ht. unfold ticks_to_nsec.
  destruct (of_Z_uint64_finite tick Ht) as (m & e & -> & _).
  simpl. rewrite round_zero; [reflexivity | ].
  rewrite (F2Q_zero 0). rewrite Qmult_0_r. apply Qle_refl.
Qed.

(** An integer of at most 53 bits is converted and rounded without
    error. *)
Lemma round_value (x : Q) (z : Z) :
  x == inject_Z z -> (0 < z < 2 ^ 53)%Z ->
  exists m e, round x = DFin m e /\ F2Q m e == inject_Z z.
Proof.
  intros Hx Hz.
  assert (Hv : F2Q z 0 == inject_Z z).
  { unfold F2Q. change (2 ^ 0) with 1. ring. }
  assert (Hmax : F2Q z 0 < 2 ^ emax).
  { rewrite Hv. apply Qlt_trans with (2 ^ 53).
    - rewrite (pow2_inject 53) by lia. rewrite <- Zlt_Qlt. lia.
    - apply pow2_lt. unfold emax. lia. }
  pose proof (round_bounded_above x z 0 ltac:(rewrite Hv, Hx; apply Qle_refl)
                Hz ltac:(unfold emin; lia) Hmax) as Ha.
  pose proof (round_bounded_below x z 0 ltac:(rewrite Hv, Hx; apply Qle_refl)
                Hz ltac:(unfold emin; lia)) as Hb.
  destruct (round x) as [m e | | ]; simpl in Ha, Hb; try contradiction.
  exists m, e. split; [reflexivity | ]. rewrite <- Hv. apply Qle_antisym; assumption.
Qed.

(** When the tick rate divides [10 ^ 9], the scale factor is the exact
    number [k] of nanoseconds per tick and the conversion of a counter
    value is exact as long as the product has at most 53 bits. *)
Lemma ticks_to_nsec_exact (tps k tick : Z) :
  (tps * k = 10 ^ 9)%Z -> (0 < k)%Z -> (0 <= tick)%Z -> (tick * k < 2 ^ 53)%Z ->
  ticks_to_nsec (nsec_per_tick tps) tick = Some (tick * k)%Z.
Proof.
  intros Hdiv Hk Htick Hprod.
  assert (Htps : (0 < tps < 2 ^ 53)%Z) by nia.
  assert (Hk53 : (0 < k < 2 ^ 53)%Z) by nia.
  destruct (round_value (inject_Z tps) tps ltac:(reflexivity) Htps)
    as (m2 & e2 & Hr2 & Hv2).
  assert (Htq : 0 < inject_Z tps) by (rewrite <- (Zlt_Qlt 0); lia).
  assert (Hkq : 0 < inject_Z k) by (rewrite <- (Zlt_Qlt 0); lia).
  assert (Hm2 : (m2 =? 0)%Z = false).
  { apply Z.eqb_neq. intros ->. rewrite F2Q_zero in Hv2. lra. }
  assert (Hquot : F2Q 8388608000000000 (-23) / F2Q m2 e2 == inject_Z k).
  { rewrite giga_value, Hv2.
    assert (Hg : inject_Z 1000000000 == inject_Z tps * inject_Z k).
    { rewrite <- inject_Z_mult. rewrite Hdiv. reflexivity. }
    rewrite Hg. field. lra. }
  destruct (round_value _ k Hquot Hk53) as (mc & ec & Hrc & Hvc).
  assert (Hc : nsec_per_tick tps = DFin mc ec).
  { unfold nsec_per_tick. rewrite of_Z_giga. unfold of_Z. rewrite Hr2.
    unfold div. rewrite Hm2. exact Hrc. }
  rewrite Hc. unfold ticks_to_nsec.
  destruct (Z.eq_dec tick 0) as [-> | Hne].
  - unfold of_Z. rewrite (round_zero (inject_Z 0)) by apply Qle_refl.
    cbn [mul]. rewrite round_zero.
    + reflexivity.
    + rewrite F2Q_zero, Qmult_0_l. apply Qle_refl.
  - assert (Ht53 : (0 < tick < 2 ^ 53)%Z) by nia.
    destruct (round_value (inject_Z tick) tick ltac:(reflexivity) Ht53)
      as (mt & et & Hrt & Hvt).
    unfold of_Z. rewrite Hrt. cbn [mul].
    assert (Hp : F2Q mt et * F2Q mc ec == inject_Z (tick * k)).
    { rewrite Hvt, Hvc, inject_Z_mult. reflexivity. }
    destruct (round_value _ (tick * k)%Z Hp ltac:(nia)) as (m & e & Hr & Hv).
    rewrite Hr. unfold to_Z. rewrite (Qfloor_comp _ _ Hv), Qfloor_Z.
    replace (tick * k <? 2 ^ 63)%Z with true by (symmetry; apply Z.ltb_lt; lia).
    reflexivity.
Qed.
End EdgeFacts.

(** ** The clock at the edges *)

(** X1. Before [lf_initialize_clock] has run the scale factor is the zero of
    static storage, and [lf_clock_gettime] stores 0 whatever the counter
    holds. *)
Theorem lf_clock_gettime_before_initialization
    (P : Solid.platform) (b : positive) (s : Solid.state) :
  Solid._nw_nsecPerTick s = Solid._nw_nsecPerTick Solid.initial_state ->
  Solid.current_tick P (Solid.instant s) < 2 ^ 64 ->
  Solid.lf_clock_gettime P (Addr b) s = Ok ((0, 0), Solid.elapse P s).
Proof.
  intros Hc Ht. apply RunFacts.lf_clock_gettime_ok.
  rewrite Hc. apply EdgeFacts.ticks_to_nsec_by_zero. exact Ht.
Qed.

Lemma lf_clock_gettime_before_initialization_witness :
  Solid.lf_clock_gettime (Scenario.counting_platform Scenario.GHz Scenario.never)
    (Addr 1) (Solid.set_instant 1000 Solid.initial_state)
  = Ok ((0, 0), Solid.elapse (Scenario.counting_platform Scenario.GHz Scenario.never)
                  (Solid.set_instant 1000 Solid.initial_state)).
Proof.
  apply lf_clock_gettime_before_initialization.
  - reflexivity.
  - vm_compute. reflexivity.
Defined.

(** X2. Before [lf_initialize_clock] has run, [wait_nsec] divides by zero:
    the quotient is an infinity or a NaN and its conversion to
    [uint64_t] is undefined, for every duration. *)
Theorem wait_nsec_before_initialization
    (P : Solid.platform) (fuel : nat) (nsec : Z) (s : Solid.state) :
  Solid._nw_nsecPerTick s = Solid._nw_nsecPerTick Solid.initial_state ->
  Solid.wait_nsec P fuel nsec s = Undefined OutOfRangeConversion.
Proof.
  intros Hc. unfold Solid.wait_nsec, Solid.bind, Solid.SOLID_TIMER_GetCurrentTick,
    Solid.get, Solid.lift.
  rewrite RunFacts.nsecPerTick_elapse, Hc.
  change (Solid._nw_nsecPerTick Solid.initial_state) with (Double.DFin 0 0).
  rewrite EdgeFacts.nsec_to_ticks_by_zero. reflexivity.
Qed.

Lemma wait_nsec_before_initialization_witness :
  Solid.wait_nsec (Scenario.counting_platform Scenario.GHz Scenario.never)
    10 500 Solid.initial_state
  = Undefined OutOfRangeConversion.
Proof. apply wait_nsec_before_initialization. reflexivity. Defined.

(** X3. A platform that reports no ticks per second makes the scale factor
    infinite: every clock read is then undefined, and every wait of a
    32-bit duration returns after one read of the counter. *)
Theorem zero_tick_rate (P : Solid.platform) (s : Solid.state) :
  Solid.ticks_per_sec P <= 0 ->
  Solid.clock_initialized P s ->
  (forall b, Solid.lf_clock_gettime P (Addr b) s = Undefined OutOfRangeConversion) /\
  (forall fuel nsec,
      0 <= nsec < 2 ^ 32 ->
      0 <= Solid.current_tick P (Solid.instant s) < 2 ^ 64 ->
      Solid.wait_nsec P fuel nsec s = Ok (tt, Solid.elapse P s)).
Proof.
  intros Htps Hinit. unfold Solid.clock_initialized in Hinit.
  rewrite (EdgeFacts.nsec_per_tick_nonpositive _ Htps) in Hinit. split.
  - intros b. unfold Solid.lf_clock_gettime, Solid.bind, Solid.solid_cs_assert,
      Solid.SOLID_TIMER_GetCurrentTick, Solid.get, Solid.lift.
    cbn [is_null negb].
    rewrite RunFacts.nsecPerTick_elapse, Hinit, EdgeFacts.ticks_to_nsec_by_infinity.
    reflexivity.
  - intros fuel nsec Hnsec Htick.
    unfold Solid.wait_nsec, Solid.bind, Solid.SOLID_TIMER_GetCurrentTick,
      Solid.get, Solid.lift.
    rewrite RunFacts.nsecPerTick_elapse, Hinit.
    assert (Hq : Solid.nsec_to_ticks Double.DInf nsec = Some 0).
    { unfold Solid.nsec_to_ticks.
      destruct (EdgeFacts.of_Z_uint64_finite nsec ltac:(lia)) as (m & e & -> & _).
      vm_compute. reflexivity. }
    rewrite Hq. cbn [defined result_bind].
    unfold CInt.add_uint64, CInt.to_unsigned.
    rewrite Z.add_0_r, Z.mod_small by lia.
    replace (_ >=? _) with true by (symmetry; apply Z.geb_le; lia).
    reflexivity.
Qed.

Lemma zero_tick_rate_witness :
  let P := Scenario.counting_platform 0 Scenario.never in
  (forall b, Solid.lf_clock_gettime P (Addr b) (Scenario.locked_state 0 7)
             = Undefined OutOfRangeConversion) /\
  Solid.wait_nsec P 0 500 (Scenario.locked_state 0 7)
    = Ok (tt, Solid.elapse P (Scenario.locked_state 0 7)).
Proof.
  intros P.
  destruct (zero_tick_rate P (Scenario.locked_state 0 7)) as [Hread Hwait].
  - simpl. lia.
  - reflexivity.
  - split; [exact Hread | ]. apply Hwait; [lia | vm_compute; intuition discriminate].
Defined.

(** X4. When the tick rate divides [10 ^ 9], [k] nanoseconds going into one
    tick, the clock is exact: it stores [k] times the counter, as long as
    that product has at most 53 bits. *)
Theorem lf_clock_gettime_exact
    (P : Solid.platform) (b : positive) (s : Solid.state) (k : Z) :
  Solid.clock_initialized P s ->
  Solid.ticks_per_sec P * k = 10 ^ 9 ->
  0 < k ->
  0 <= Solid.current_tick P (Solid.instant s) ->
  Solid.current_tick P (Solid.instant s) * k < 2 ^ 53 ->
  Solid.lf_clock_gettime P (Addr b) s
  = Ok ((0, Solid.current_tick P (Solid.instant s) * k), Solid.elapse P s).
Proof.
  intros Hinit Hdiv Hk H0 Hprod. apply RunFacts.lf_clock_gettime_ok.
  rewrite Hinit. apply EdgeFacts.ticks_to_nsec_exact; assumption.
Qed.

Lemma lf_clock_gettime_exact_witness :
  let P := Scenario.counting_platform 25000000 Scenario.never in
  Solid.lf_clock_gettime P (Addr 1) (Scenario.locked_state 25000000 1000)
  = Ok ((0, 1000 * 40), Solid.elapse P (Scenario.locked_state 25000000 1000)).
Proof.
  intros P.
  apply (lf_clock_gettime_exact P 1 (Scenario.locked_state 25000000 1000) 40).
  - reflexivity.
  - reflexivity.
  - lia.
  - vm_compute. discriminate.
  - vm_compute. reflexivity.
Defined.

(** ** The busy-wait *)

Module WaitFacts.
Import Solid.

Section WithPlatform.
Variable P : platform.

(** Whatever the busy-wait returns, it has only let instants go by. *)
Lemma wait_loop_inv (fuel : nat) :
  forall (deadline : Z) (s s' : state) (u : unit),
    wait_loop P fuel deadline s = Ok (u, s') ->
    exists k, s' = elapse_n P (S k) s /\
              deadline <= current_tick P (instant s + k).
Proof.
  induction fuel as [ | fuel IH]; intros deadline s s' u Hrun; [discriminate | ].
  simpl in Hrun. unfold bind at 1, SOLID_TIMER_GetCurrentTick at 1 in Hrun.
  destruct (current_tick P (instant s) >=? deadline) eqn:Hge.
  - injection Hrun as _ <-. exists 0%nat. apply Z.geb_le in Hge.
    rewrite Nat.add_0_r. split; [reflexivity | exact Hge].
  - apply IH in Hrun. destruct Hrun as (k & -> & Hk).
    rewrite RunFacts.instant_elapse in Hk.
    exists (S k). split; [reflexivity | ].
    replace (instant s + S k)%nat with (S (instant s) + k)%nat by lia. exact Hk.
Qed.

Lemma wait_nsec_inv (fuel : nat) (nsec : Z) (s s' : state) (u : unit) :
  wait_nsec P fuel nsec s = Ok (u, s') ->
  exists k ticks,
    nsec_to_ticks (_nw_nsecPerTick s) nsec = Some ticks /\
    s' = elapse_n P (S k) s /\
    CInt.add_uint64 (current_tick P (instant s)) ticks
      <= current_tick P (instant s + k).
Proof.
  unfold wait_nsec, bind, SOLID_TIMER_GetCurrentTick, get, lift.
  rewrite RunFacts.nsecPerTick_elapse.
  destruct (nsec_to_ticks (_nw_nsecPerTick s) nsec) as [ticks | ];
    cbn [defined result_bind]; [ | discriminate].
  destruct (current_tick P (instant s) >=? _) eqn:Hge.
  - intros H. injection H as _ <-. exists 0%nat, ticks. apply Z.geb_le in Hge.
    rewrite Nat.add_0_r. repeat split. exact Hge.
  - intros H. apply wait_loop_inv in H. destruct H as (k & -> & Hk).
    rewrite RunFacts.instant_elapse in Hk.
    exists (S k), ticks. repeat split.
    replace (instant s + S k)%nat with (S (instant s) + k)%nat by lia. exact Hk.
Qed.

(** What [n] instants leave unchanged, and what they do to the flag. *)
Lemma elapse_n_frame (n : nat) (s : state) :
  instant (elapse_n P n s) = (instant s + n)%nat /\
  _nw_nsecPerTick (elapse_n P n s) = _nw_nsecPerTick s /\
  _critical_section (elapse_n P n s) = _critical_section s /\
  _critical_section_initialized (elapse_n P n s) = _critical_section_initialized s /\
  _lf_async_event (elapse_n P n s)
    = _lf_async_event s || notified_between P (instant s) n.
Proof.
  destruct (RunFacts.elapse_n_critical_section P n s) as [H1 H2].
  split; [apply RunFacts.elapse_n_instant | ].
  split; [apply RunFacts.elapse_n_nsecPerTick | ].
  split; [exact H1 | split; [exact H2 | apply RunFacts.elapse_n_async_event]].
Qed.

End WithPlatform.
End WaitFacts.

(** X5. [wait_nsec] returns at the first read at which the tick counter has
    reached its deadline, not before: every earlier read was below the
    deadline.  It lets one instant go by per read and changes no
    variable of the runtime; the event flag only records the
    notifications of these instants. *)
Theorem wait_nsec_returns_at_deadline
    (P : Solid.platform) (s : Solid.state) (n fuel : nat) (nsec ticks : Z) :
  Solid.nsec_to_ticks (Solid._nw_nsecPerTick s) nsec = Some ticks ->
  CInt.add_uint64 (Solid.current_tick P (Solid.instant s)) ticks
    <= Solid.current_tick P (Solid.instant s + n) ->
  (n <= fuel)%nat ->
  exists k s',
    Solid.wait_nsec P fuel nsec s = Ok (tt, s') /\
    (k <= n)%nat /\
    Solid.instant s' = (Solid.instant s + S k)%nat /\
    CInt.add_uint64 (Solid.current_tick P (Solid.instant s)) ticks
      <= Solid.current_tick P (Solid.instant s + k) /\
    (forall j, (j < k)%nat ->
       Solid.current_tick P (Solid.instant s + j)
         < CInt.add_uint64 (Solid.current_tick P (Solid.instant s)) ticks) /\
    Solid._nw_nsecPerTick s' = Solid._nw_nsecPerTick s /\
    Solid._critical_section s' = Solid._critical_section s /\
    Solid._critical_section_initialized s'
      = Solid._critical_section_initialized s /\
    Solid._lf_async_event s'
      = Solid._lf_async_event s
        || Solid.notified_between P (Solid.instant s) (S k).
Proof.
  intros Hticks Hreach Hfuel.
  destruct (RunFacts.wait_nsec_reaches P n fuel nsec ticks s Hticks Hreach Hfuel)
    as (k & Hk & Hrun & Hreachk & Hmin).
  destruct (WaitFacts.elapse_n_frame P (S k) s) as (F1 & F2 & F3 & F4 & F5).
  exists k, (Solid.elapse_n P (S k) s).
  repeat split; try assumption.
Qed.

Lemma wait_nsec_returns_at_deadline_witness :
  let P := Scenario.counting_platform Scenario.GHz (Scenario.at_instant 12) in
  exists k s',
    Solid.wait_nsec P 20 20 (Scenario.locked_state Scenario.GHz 10) = Ok (tt, s') /\
    (k <= 20)%nat /\
    Solid.instant s' = (10 + S k)%nat /\
    30 <= Solid.current_tick P (10 + k) /\
    (forall j, (j < k)%nat -> Solid.current_tick P (10 + j) < 30) /\
    Solid._nw_nsecPerTick s' = Solid.nsec_per_tick Scenario.GHz /\
    Solid._critical_section s' = 1%nat /\
    Solid._critical_section_initialized s' = true /\
    Solid._lf_async_event s' = false || Solid.notified_between P 10 (S k).
Proof.
  intros P.
  apply (wait_nsec_returns_at_deadline P (Scenario.locked_state Scenario.GHz 10)
           20 20 20 20).
  - vm_compute. reflexivity.
  - vm_compute. discriminate.
  - lia.
Defined.

(** X6. When the deadline does not fit 64 bits the sum wraps around, the
    deadline falls below the counter and [wait_nsec] returns after a
    single read. *)
Theorem wait_nsec_deadline_wraps
    (P : Solid.platform) (s : Solid.state) (fuel : nat) (nsec ticks : Z) :
  Solid.nsec_to_ticks (Solid._nw_nsecPerTick s) nsec = Some ticks ->
  0 <= Solid.current_tick P (Solid.instant s) < 2 ^ 64 ->
  2 ^ 64 <= Solid.current_tick P (Solid.instant s) + ticks ->
  Solid.wait_nsec P fuel nsec s = Ok (tt, Solid.elapse P s).
Proof.
  intros Hticks Hnow Hwrap.
  assert (Hlt : ticks < 2 ^ 64).
  { unfold Solid.nsec_to_ticks, Double.to_Z in Hticks.
    destruct (Double.div _ _) as [m e | | ]; try discriminate.
    destruct (Qfloor (Double.F2Q m e) <? 2 ^ 64) eqn:Hb; [ | discriminate].
    injection Hticks as <-. apply Z.ltb_lt in Hb. exact Hb. }
  unfold Solid.wait_nsec, Solid.bind, Solid.SOLID_TIMER_GetCurrentTick,
    Solid.get, Solid.lift.
  rewrite RunFacts.nsecPerTick_elapse, Hticks. cbn [defined result_bind].
  assert (Hu : CInt.add_uint64 (Solid.current_tick P (Solid.instant s)) ticks
               = Solid.current_tick P (Solid.instant s) + ticks - 2 ^ 64).
  { unfold CInt.add_uint64, CInt.to_unsigned.
    symmetry. apply Z.mod_unique with (q := 1); lia. }
  rewrite Hu.
  replace (_ >=? _) with true by (symmetry; apply Z.geb_le; lia).
  reflexivity.
Qed.

Lemma wait_nsec_deadline_wraps_witness :
  let P := {| Solid.current_tick := fun _ => 2 ^ 64 - 3;
              Solid.ticks_per_sec := Scenario.GHz;
              Solid.async_notify := Scenario.never |} in
  Solid.wait_nsec P 0 1000 (Scenario.locked_state Scenario.GHz 0)
  = Ok (tt, Solid.elapse P (Scenario.locked_state Scenario.GHz 0)).
Proof.
  intros P.
  apply (wait_nsec_deadline_wraps P (Scenario.locked_state Scenario.GHz 0) 0 1000 1000).
  - vm_compute. reflexivity.
  - vm_compute. split; [discriminate | reflexivity].
  - vm_compute. discriminate.
Defined.

(** ** More on the sleep *)

(** X8. An event that is pending when [lf_sleep_until_locked] is entered is
    dropped: the call resets the flag first, and its outcome is the same
    whether the flag was set or not. *)
Theorem sleep_drops_pending_event
    (P : Solid.platform) (fuel : nat) (wakeup : Z) (b : bool) (s : Solid.state) :
  Solid.lf_sleep_until_locked P fuel wakeup (Solid.set_async_event b s)
  = Solid.lf_sleep_until_locked P fuel wakeup s.
Proof.
  unfold Solid.lf_sleep_until_locked.
  do 2 (erewrite RunFacts.bind_ok by reflexivity; cbv beta).
  symmetry.
  do 2 (erewrite RunFacts.bind_ok by reflexivity; cbv beta).
  rewrite !RunFacts.elapse_eq. reflexivity.
Qed.

(** X9. When the wakeup time has passed, [lf_sleep_until_locked] returns 0
    three instants later without reading the counter again.  The critical
    section is left one level lower, and a notification of these
    instants is not reported but stays in the flag. *)
Theorem sleep_with_past_wakeup
    (P : Solid.platform) (s : Solid.state) (fuel : nat) (wakeup now d : Z) :
  Solid.ticks_to_nsec (Solid._nw_nsecPerTick s)
    (Solid.current_tick P (Solid.instant s + 2)) = Some now ->
  CInt.sub_int64 wakeup now = Some d ->
  d < 0 ->
  exists s',
    Solid.lf_sleep_until_locked P fuel wakeup s = Ok (0, s') /\
    Solid.instant s' = (Solid.instant s + 3)%nat /\
    Solid._critical_section s' = Nat.pred (Solid._critical_section s) /\
    Solid._lf_async_event s'
      = Solid.notified_between P (S (Solid.instant s)) 2 /\
    Solid._nw_nsecPerTick s' = Solid._nw_nsecPerTick s.
Proof.
  intros Hnow Hd Hneg. exists (Solid.early_state P s).
  split; [exact (RunFacts.sleep_until_early P s fuel wakeup now d Hnow Hd Hneg) | ].
  unfold Solid.notified_between. cbn. rewrite orb_false_r. repeat split.
Qed.

Lemma sleep_with_past_wakeup_witness :
  let P := Scenario.counting_platform Scenario.GHz (Scenario.at_instant 11) in
  exists s',
    Solid.lf_sleep_until_locked P 0 5 (Scenario.locked_state Scenario.GHz 10)
      = Ok (0, s') /\
    Solid.instant s' = 13%nat /\
    Solid._critical_section s' = 0%nat /\
    Solid._lf_async_event s' = Solid.notified_between P 11 2 /\
    Solid._nw_nsecPerTick s' = Solid.nsec_per_tick Scenario.GHz.
Proof.
  intros P.
  apply (sleep_with_past_wakeup P (Scenario.locked_state Scenario.GHz 10) 0 5 12 (-7)).
  - vm_compute. reflexivity.
  - vm_compute. reflexivity.
  - lia.
Defined.

Lemma sleep_ignores_notifications_witness :
  let P := Scenario.counting_platform Scenario.GHz (Scenario.at_instant 5) in
  let P' := Scenario.counting_platform Scenario.GHz Scenario.never in
  exists r r' s',
    Solid.lf_sleep_until_locked P 48 50 (Scenario.locked_state Scenario.GHz 0)
      = Ok (r, s') /\
    Solid.lf_sleep_until_locked P' 48 50 (Scenario.locked_state Scenario.GHz 0)
      = Ok (r', s') /\
    CInt.add_uint64 (Solid.current_tick P 3) 48
      <= Solid.current_tick P (Solid.instant s' - 3).
Proof.
  intros P P'.
  apply (sleep_ignores_notifications P P' (Scenario.locked_state Scenario.GHz 0)
           48 50 2 48 48).
  - intros i. reflexivity.
  - vm_compute. reflexivity.
  - vm_compute. reflexivity.
  - lia.
  - vm_compute. reflexivity.
  - vm_compute. discriminate.
Defined.

Lemma sleep_duration_wraps_witness :
  let P := Scenario.counting_platform Scenario.GHz Scenario.never in
  Solid.lf_sleep_until_locked P 48 (50 + 2 ^ 32) (Scenario.locked_state Scenario.GHz 0)
  = Solid.lf_sleep_until_locked P 48 50 (Scenario.locked_state Scenario.GHz 0).
Proof.
  intros P.
  apply (sleep_duration_wraps P (Scenario.locked_state Scenario.GHz 0)
           48 50 2 48 48).
  - vm_compute. reflexivity.
  - vm_compute. reflexivity.
  - vm_compute. reflexivity.
  - lia.
  - vm_compute. reflexivity.
  - vm_compute. discriminate.
Defined.

(** ** The sleep of the threaded configuration *)

(** X12. With [LF_THREADED] defined, [lf_sleep_until_locked] returns 0
    whenever it returns: it reads the clock, waits, and touches neither
    the critical section nor the event flag, in which the notifications
    of the instants gone by stay recorded. *)
Theorem threaded_sleep_returns_zero
    (P : Solid.platform) (fuel : nat) (wakeup : Z) (s s' : Solid.state) (r : Z) :
  Solid.lf_sleep_until_locked_threaded P fuel wakeup s = Ok (r, s') ->
  r = 0 /\
  exists n,
    (0 < n)%nat /\
    Solid.instant s' = (Solid.instant s + n)%nat /\
    Solid._critical_section s' = Solid._critical_section s /\
    Solid._nw_nsecPerTick s' = Solid._nw_nsecPerTick s /\
    Solid._lf_async_event s'
      = Solid._lf_async_event s || Solid.notified_between P (Solid.instant s) n.
Proof.
  unfold Solid.lf_sleep_until_locked_threaded. intros Hrun.
  assert (Hframe : forall n, (0 < n)%nat -> s' = Solid.elapse_n P n s ->
            exists n,
              (0 < n)%nat /\
              Solid.instant s' = (Solid.instant s + n)%nat /\
              Solid._critical_section s' = Solid._critical_section s /\
              Solid._nw_nsecPerTick s' = Solid._nw_nsecPerTick s /\
              Solid._lf_async_event s'
                = Solid._lf_async_event s
                  || Solid.notified_between P (Solid.instant s) n).
  { intros n Hn ->. exists n.
    destruct (WaitFacts.elapse_n_frame P n s) as (F1 & F2 & F3 & _ & F5).
    repeat split; assumption. }
  unfold Solid.bind at 1 in Hrun.
  destruct (Solid.lf_clock_gettime P (Addr 1) s) as [[[r0 now] s1] | | | | ] eqn:Hclock;
    try discriminate.
  apply lf_clock_gettime_inv in Hclock. destruct Hclock as (_ & _ & -> & _).
  cbn [snd] in Hrun. unfold Solid.bind at 1, Solid.lift in Hrun.
  destruct (CInt.sub_int64 wakeup now) as [d | ]; cbn [defined result_bind] in Hrun;
    [ | discriminate].
  destruct (d <? 0).
  - injection Hrun as <- <-. split; [reflexivity | ].
    apply (Hframe 1%nat); [lia | reflexivity].
  - unfold Solid.bind in Hrun.
    destruct (Solid.wait_nsec P fuel (CInt.to_unsigned 32 d) (Solid.elapse P s))
      as [[u s2] | | | | ] eqn:Hwait; try discriminate.
    injection Hrun as <- <-. split; [reflexivity | ].
    apply WaitFacts.wait_nsec_inv in Hwait.
    destruct Hwait as (k & ticks & _ & -> & _).
    apply (Hframe (S (S k))); [lia | reflexivity].
Qed.

Lemma threaded_sleep_returns_zero_witness :
  let P := Scenario.counting_platform Scenario.GHz (Scenario.at_instant 5) in
  let s := Scenario.locked_state Scenario.GHz 0 in
  let s' := Solid.set_async_event true (Scenario.locked_state Scenario.GHz 52) in
  0 = 0 /\
  exists n,
    (0 < n)%nat /\
    Solid.instant s' = (Solid.instant s + n)%nat /\
    Solid._critical_section s' = Solid._critical_section s /\
    Solid._nw_nsecPerTick s' = Solid._nw_nsecPerTick s /\
    Solid._lf_async_event s'
      = Solid._lf_async_event s || Solid.notified_between P (Solid.instant s) n.
Proof.
  intros P s s'.
  apply (threaded_sleep_returns_zero P 50 50 s s' 0).
  vm_compute. reflexivity.
Defined.

(** ** [lf_sleep] *)

(** X13. [lf_sleep] never reports an interruption: whenever it returns, it
    returns 0, having only let instants go by.  It leaves the critical
    section and the scale factor alone and never clears the event flag,
    which records the notifications of these instants. *)
Theorem lf_sleep_never_reports_interruption
    (P : Solid.platform) (reltim_bits : Z) (dly : nat -> Z -> nat)
    (fuel : nat) (d : Z) (s s' : Solid.state) (r : Z) :
  Solid.lf_sleep P reltim_bits dly fuel d s = Ok (r, s') ->
  r = 0 /\
  exists n,
    Solid.instant s' = (Solid.instant s + n)%nat /\
    Solid._critical_section s' = Solid._critical_section s /\
    Solid._nw_nsecPerTick s' = Solid._nw_nsecPerTick s /\
    Solid._lf_async_event s'
      = Solid._lf_async_event s || Solid.notified_between P (Solid.instant s) n.
Proof.
  unfold Solid.lf_sleep. intros Hrun.
  assert (Hframe : forall n, s' = Solid.elapse_n P n s ->
            exists n,
              Solid.instant s' = (Solid.instant s + n)%nat /\
              Solid._critical_section s' = Solid._critical_section s /\
              Solid._nw_nsecPerTick s' = Solid._nw_nsecPerTick s /\
              Solid._lf_async_event s'
                = Solid._lf_async_event s
                  || Solid.notified_between P (Solid.instant s) n).
  { intros n ->. exists n.
    destruct (WaitFacts.elapse_n_frame P n s) as (F1 & F2 & F3 & _ & F5).
    repeat split; assumption. }
  destruct (d <? 0).
  - injection Hrun as <- <-. split; [reflexivity | ]. apply (Hframe 0%nat). reflexivity.
  - destruct (d <? 1000).
    + unfold Solid.bind in Hrun.
      destruct (Solid.wait_nsec P fuel (CInt.to_unsigned 32 d) s)
        as [[u s1] | | | | ] eqn:Hwait; try discriminate.
      injection Hrun as <- <-. split; [reflexivity | ].
      apply WaitFacts.wait_nsec_inv in Hwait.
      destruct Hwait as (k & ticks & _ & -> & _). apply (Hframe (S k)). reflexivity.
    + unfold Solid.bind, Solid.lift, Solid.dly_tsk in Hrun.
      destruct (CInt.add_int64 d 500) as [sum | ]; cbn in Hrun; [ | discriminate].
      injection Hrun as <- <-. split; [reflexivity | ].
      eapply Hframe. reflexivity.
Qed.

Lemma lf_sleep_never_reports_interruption_witness :
  let P := Scenario.counting_platform Scenario.GHz (Scenario.at_instant 3) in
  let s := Scenario.locked_state Scenario.GHz 0 in
  let s' := Solid.set_async_event true (Scenario.locked_state Scenario.GHz 7) in
  0 = 0 /\
  exists n,
    Solid.instant s' = (Solid.instant s + n)%nat /\
    Solid._critical_section s' = Solid._critical_section s /\
    Solid._nw_nsecPerTick s' = Solid._nw_nsecPerTick s /\
    Solid._lf_async_event s'
      = Solid._lf_async_event s || Solid.notified_between P (Solid.instant s) n.
Proof.
  intros P s s'.
  apply (lf_sleep_never_reports_interruption P 32 (fun _ usec => Z.to_nat usec)
           0 7300 s s' 0).
  vm_compute. reflexivity.
Defined.

(** X14. For a duration of a microsecond or more [lf_sleep] does not read the
    counter: it rounds the duration to the nearest microsecond, at least
    one, passes the count to [dly_tsk], converted to [RELTIM], and
    returns 0.  The delay asked for is the rounded duration, within
    500 ns of the duration, when the count fits [RELTIM]; a larger count
    is cut to the width of [RELTIM].  Within 500 ns of the largest
    [interval_t] the rounding overflows. *)
Theorem lf_sleep_rounds_to_microsecond
    (P : Solid.platform) (reltim_bits : Z) (dly : nat -> Z -> nat)
    (fuel : nat) (d : Z) (s : Solid.state) :
  1000 <= d ->
  (d <= CInt.INT64_MAX - 500 ->
   exists usec dlytim,
     1 <= usec /\
     -500 <= d - 1000 * usec < 500 /\
     dlytim = usec mod 2 ^ reltim_bits /\
     (usec < 2 ^ reltim_bits -> dlytim = usec) /\
     Solid.lf_sleep P reltim_bits dly fuel d s
       = Ok (0, Solid.elapse_n P (dly (Solid.instant s) dlytim) s)) /\
  (CInt.INT64_MAX - 500 < d ->
   Solid.lf_sleep P reltim_bits dly fuel d s = Undefined SignedOverflow).
Proof.
  intros Hd. unfold Solid.lf_sleep.
  replace (d <? 0) with false by (symmetry; apply Z.ltb_ge; lia).
  replace (d <? 1000) with false by (symmetry; apply Z.ltb_ge; lia).
  unfold Solid.bind, Solid.lift, Solid.dly_tsk, CInt.add_int64, CInt.in_int64.
  unfold CInt.INT64_MAX, CInt.INT64_MIN. split.
  - intros Hmax.
    replace (- 2 ^ 63 <=? d + 500) with true by (symmetry; apply Z.leb_le; lia).
    replace (d + 500 <=? 2 ^ 63 - 1) with true by (symmetry; apply Z.leb_le; lia).
    cbn [andb defined result_bind].
    exists ((d + 500) ÷ 1000), (CInt.to_unsigned reltim_bits ((d + 500) ÷ 1000)).
    rewrite Z.quot_div_nonneg by lia.
    pose proof (Z.div_mod (d + 500) 1000 ltac:(lia)) as Hdm.
    pose proof (Z.mod_pos_bound (d + 500) 1000 ltac:(lia)) as Hmod.
    split; [lia | ]. split; [lia | ]. split; [reflexivity | ].
    split; [ | reflexivity].
    intros Hfit. unfold CInt.to_unsigned. apply Z.mod_small. lia.
  - intros Hmax.
    replace (d + 500 <=? 2 ^ 63 - 1) with false by (symmetry; apply Z.leb_gt; lia).
    rewrite andb_false_r. reflexivity.
Qed.

Lemma lf_sleep_rounds_to_microsecond_witness :
  let P := Scenario.counting_platform Scenario.GHz Scenario.never in
  exists usec dlytim,
    1 <= usec /\
    -500 <= 7500 - 1000 * usec < 500 /\
    dlytim = usec mod 2 ^ 32 /\
    (usec < 2 ^ 32 -> dlytim = usec) /\
    Solid.lf_sleep P 32 (fun _ usec => Z.to_nat usec) 0 7500
        (Scenario.locked_state Scenario.GHz 0)
      = Ok (0, Solid.elapse_n P (Z.to_nat dlytim) (Scenario.locked_state Scenario.GHz 0)).
Proof.
  intros P.
  apply (lf_sleep_rounds_to_microsecond P 32 (fun _ usec => Z.to_nat usec) 0 7500
           (Scenario.locked_state Scenario.GHz 0)).
  - lia.
  - unfold CInt.INT64_MAX. lia.
Defined.

(** With a 32-bit [RELTIM], a sleep of [2 ^ 32] microseconds and 7000
    nanoseconds asks the kernel for a delay of 7 microseconds. *)
Example lf_sleep_delay_wraps :
  Solid.lf_sleep (Scenario.counting_platform Scenario.GHz Scenario.never) 32
      (fun _ usec => Z.to_nat usec) 0 (2 ^ 32 * 1000 + 7000)
      (Scenario.locked_state Scenario.GHz 0)
  = Ok (0, Scenario.locked_state Scenario.GHz 7).
Proof. vm_compute. reflexivity. Qed.

(** ** What the console overrides send to the log *)

Module LogFacts.
Import Solid.

(** The buffer after [vsnprintf], for an expansion that is not
    truncated. *)
Lemma vsnprintf_fits (junk : list byte) (fmt out : string) (args : list Printf.arg) :
  Printf.sprintf fmt args = Some out ->
  (List.length (list_byte_of_string out) <= 1023)%nat ->
  Printf.vsnprintf (local_buf junk) 1024 fmt args
  = Some (Z.of_nat (List.length (list_byte_of_string out)),
          list_byte_of_string out
            ++ x00 :: drop (S (List.length (list_byte_of_string out))) (local_buf junk)).
Proof.
  intros Hout Hlen. unfold Printf.vsnprintf. rewrite Hout.
  cbn [Nat.sub]. rewrite take_ge by lia. reflexivity.
Qed.

(** Appending the newline and the NUL at the index [vsnprintf] returned. *)
Lemma terminate_line (bytes rest : list byte) (c : byte) :
  rest <> [] ->
  exists rest',
    store (bytes ++ c :: rest) (Z.of_nat (List.length bytes)) x0a
      = Ok (bytes ++ x0a :: rest) /\
    store (bytes ++ x0a :: rest) (Z.of_nat (List.length bytes) + 1) x00
      = Ok (bytes ++ x0a :: x00 :: rest') /\
    List.length rest = S (List.length rest').
Proof.
  intros Hrest. destruct rest as [ | c' rest']; [congruence | ].
  exists rest'. split; [ | split; [ | reflexivity]].
  - rewrite store_in_bounds by (rewrite length_app; cbn [List.length]; lia).
    rewrite Nat2Z.id.
    rewrite (insert_app_r_alt bytes _ (List.length bytes)) by apply Nat.le_refl.
    rewrite Nat.sub_diag. reflexivity.
  - rewrite store_in_bounds by (rewrite length_app; cbn [List.length]; lia).
    replace (Z.to_nat (Z.of_nat (List.length bytes) + 1))
      with (S (List.length bytes)) by lia.
    rewrite (insert_app_r_alt bytes _ (S (List.length bytes))) by lia.
    replace (S (List.length bytes) - List.length bytes)%nat with 1%nat by lia.
    reflexivity.
Qed.

(** The bytes a line-printing function hands to [SOLID_LOG_write]. *)
Lemma logged_line (bytes rest : list byte) :
  SOLID_LOG_write (bytes ++ x0a :: x00 :: rest)
    (Z.of_nat (List.length bytes) + 1 + 1)
  = bytes ++ [x0a; x00].
Proof.
  unfold SOLID_LOG_write.
  replace (Z.to_nat (Z.of_nat (List.length bytes) + 1 + 1))
    with (List.length bytes + 2)%nat by lia.
  rewrite take_app_add'; reflexivity.
Qed.

Lemma drop_local_buf_nonempty (junk : list byte) (n : nat) :
  (n < 1024)%nat -> drop n (local_buf junk) <> [].
Proof.
  intros Hn Hnil. apply (f_equal (@List.length byte)) in Hnil.
  rewrite length_drop, local_buf_length in Hnil. cbn [List.length] in Hnil. lia.
Qed.
End LogFacts.

(** X15. [lf_print] sends the expansion, a newline and a NUL to the log when
    the expansion has at most 1022 characters, whatever the buffer held
    before; for a longer expansion a store leaves the buffer. *)
Theorem lf_print_logs_line (junk : list byte) (fmt out : string)
    (args : list Printf.arg) :
  Printf.sprintf fmt args = Some out ->
  ((List.length (list_byte_of_string out) <= 1022)%nat ->
   Solid.lf_print junk fmt args = Ok (list_byte_of_string out ++ [x0a; x00])) /\
  ((1022 < List.length (list_byte_of_string out))%nat ->
   Solid.lf_print junk fmt args = Undefined OutOfBoundsAccess).
Proof.
  intros Hout. split; intros Hlen.
  - unfold Solid.lf_print.
    rewrite (vsnprintf_described _ _ _ _ _ Hout).
    rewrite (LogFacts.vsnprintf_fits junk fmt out args Hout) by lia.
    cbn [defined result_bind].
    destruct (LogFacts.terminate_line (list_byte_of_string out)
                (drop (S (List.length (list_byte_of_string out))) (Solid.local_buf junk))
                x00
                (LogFacts.drop_local_buf_nonempty junk
                   (S (List.length (list_byte_of_string out))) ltac:(lia)))
      as (rest' & -> & H2 & _).
    cbn [result_bind]. rewrite H2. cbn [result_bind].
    rewrite LogFacts.logged_line. reflexivity.
  - destruct (vsnprintf_result (Solid.local_buf junk) 1024 fmt out args Hout)
      as (buf' & Hv & Hbuf); [lia | rewrite local_buf_length; lia | ].
    rewrite local_buf_length in Hbuf.
    unfold Solid.lf_print. rewrite (vsnprintf_described _ _ _ _ _ Hout), Hv.
  cbn [defined result_bind].
    destruct (Nat.eq_dec (List.length (list_byte_of_string out)) 1023) as [Heq | Hne].
    + rewrite store_in_bounds by lia. cbn [result_bind].
      rewrite store_out_of_bounds by (rewrite length_insert; lia). reflexivity.
    + rewrite store_out_of_bounds by lia. reflexivity.
Qed.

Lemma lf_print_logs_line_witness :
  Solid.lf_print [x01; x02] "t=%d" [Printf.ArgInt 42]
  = Ok (list_byte_of_string "t=42" ++ [x0a; x00]).
Proof.
  apply (proj1 (lf_print_logs_line [x01; x02] "t=%d" "t=42" [Printf.ArgInt 42]
                  ltac:(vm_compute; reflexivity))).
  vm_compute. lia.
Defined.

(** X16. [lf_print_debug] and [lf_print_log] write their tag, without its
    NUL, and then the line as [lf_print] does, for an expansion of at
    most 1022 characters; for a longer one the store leaves the buffer
    before anything is written. *)
Theorem lf_print_debug_log_lines (junk : list byte) (fmt out : string)
    (args : list Printf.arg) :
  Printf.sprintf fmt args = Some out ->
  ((List.length (list_byte_of_string out) <= 1022)%nat ->
   Solid.lf_print_debug junk fmt args
     = Ok [list_byte_of_string "[DEBUG] "; list_byte_of_string out ++ [x0a; x00]] /\
   Solid.lf_print_log junk fmt args
     = Ok [list_byte_of_string "[LOG] "; list_byte_of_string out ++ [x0a; x00]]) /\
  ((1022 < List.length (list_byte_of_string out))%nat ->
   Solid.lf_print_debug junk fmt args = Undefined OutOfBoundsAccess /\
   Solid.lf_print_log junk fmt args = Undefined OutOfBoundsAccess).
Proof.
  intros Hout. split; intros Hlen.
  - unfold Solid.lf_print_debug, Solid.lf_print_log.
    rewrite (vsnprintf_described _ _ _ _ _ Hout).
    rewrite (LogFacts.vsnprintf_fits junk fmt out args Hout) by lia.
    cbn [defined result_bind].
    destruct (LogFacts.terminate_line (list_byte_of_string out)
                (drop (S (List.length (list_byte_of_string out))) (Solid.local_buf junk))
                x00
                (LogFacts.drop_local_buf_nonempty junk
                   (S (List.length (list_byte_of_string out))) ltac:(lia)))
      as (rest' & -> & H2 & _).
    cbn [result_bind]. rewrite H2. cbn [result_bind].
    rewrite LogFacts.logged_line. split; reflexivity.
  - destruct (vsnprintf_result (Solid.local_buf junk) 1024 fmt out args Hout)
      as (buf' & Hv & Hbuf); [lia | rewrite local_buf_length; lia | ].
    rewrite local_buf_length in Hbuf.
    unfold Solid.lf_print_debug, Solid.lf_print_log.
    rewrite (vsnprintf_described _ _ _ _ _ Hout), Hv.
    cbn [defined result_bind].
    destruct (Nat.eq_dec (List.length (list_byte_of_string out)) 1023) as [Heq | Hne].
    + rewrite store_in_bounds by lia. cbn [result_bind].
      rewrite store_out_of_bounds by (rewrite length_insert; lia).
      split; reflexivity.
    + rewrite store_out_of_bounds by lia. split; reflexivity.
Qed.

Lemma lf_print_debug_log_lines_witness :
  Solid.lf_print_debug [x01; x02] "t=%d" [Printf.ArgInt 42]
    = Ok [list_byte_of_string "[DEBUG] "; list_byte_of_string "t=42" ++ [x0a; x00]] /\
  Solid.lf_print_log [x01; x02] "t=%d" [Printf.ArgInt 42]
    = Ok [list_byte_of_string "[LOG] "; list_byte_of_string "t=42" ++ [x0a; x00]].
Proof.
  apply (proj1 (lf_print_debug_log_lines [x01; x02] "t=%d" "t=42" [Printf.ArgInt 42]
                  ltac:(vm_compute; reflexivity))).
  vm_compute. lia.
Defined.

(** X17. [printf] returns the length of the expansion plus one and sends the
    expansion and its NUL to the log when the expansion has at most 1023
    characters, whatever the buffer held before; for a longer expansion
    the store of the NUL leaves the buffer. *)
Theorem printf_logs_string (junk : list byte) (fmt out : string)
    (args : list Printf.arg) :
  Printf.sprintf fmt args = Some out ->
  ((List.length (list_byte_of_string out) <= 1023)%nat ->
   Solid.printf junk fmt args
     = Ok (Z.of_nat (List.length (list_byte_of_string out)) + 1,
           list_byte_of_string out ++ [x00])) /\
  ((1023 < List.length (list_byte_of_string out))%nat ->
   Solid.printf junk fmt args = Undefined OutOfBoundsAccess).
Proof.
  intros Hout. split; intros Hlen.
  - unfold Solid.printf.
    rewrite (vsnprintf_described _ _ _ _ _ Hout).
    rewrite (LogFacts.vsnprintf_fits junk fmt out args Hout) by lia.
    cbn [defined result_bind].
    set (bytes := list_byte_of_string out) in *.
    set (rest := drop (S (List.length bytes)) (Solid.local_buf junk)).
    rewrite store_in_bounds by (rewrite length_app; cbn [List.length]; lia).
    cbn [result_bind]. rewrite Nat2Z.id.
    rewrite (insert_app_r_alt bytes _ (List.length bytes)) by apply Nat.le_refl.
    rewrite Nat.sub_diag. cbn [insert list_insert].
    unfold Solid.SOLID_LOG_write.
    replace (Z.to_nat (Z.of_nat (List.length bytes) + 1))
      with (List.length bytes + 1)%nat by lia.
    rewrite take_app_add'; reflexivity.
  - destruct (vsnprintf_result (Solid.local_buf junk) 1024 fmt out args Hout)
      as (buf' & Hv & Hbuf); [lia | rewrite local_buf_length; lia | ].
    rewrite local_buf_length in Hbuf.
    unfold Solid.printf. rewrite (vsnprintf_described _ _ _ _ _ Hout), Hv.
  cbn [defined result_bind].
    rewrite store_out_of_bounds by lia. reflexivity.
Qed.

Lemma printf_logs_string_witness :
  Solid.printf [x01; x02] "t=%d" [Printf.ArgInt 42]
  = Ok (Z.of_nat (List.length (list_byte_of_string "t=42")) + 1,
        list_byte_of_string "t=42" ++ [x00]).
Proof.
  apply (proj1 (printf_logs_string [x01; x02] "t=%d" "t=42" [Printf.ArgInt 42]
                  ltac:(vm_compute; reflexivity))).
  vm_compute. lia.
Defined.

(** ** More on [calloc] *)

(** X18. When the product [n * size] does not fit [size_t], a successful
    [calloc] returns a block of fewer than [n * size] bytes: the product
    reduced modulo the range of [size_t]. *)
Theorem calloc_overflow_short_block (size_bits : Z) (A : Heap.allocator)
    (n size : Z) (h h' : gmap positive (list byte)) (b : positive) :
  0 <= size_bits ->
  2 ^ size_bits <= n * size ->
  Heap.calloc size_bits A n size h = Ok (Addr b, h') ->
  exists blk,
    h' !! b = Some blk /\
    Z.of_nat (List.length blk) = (n * size) mod 2 ^ size_bits /\
    Z.of_nat (List.length blk) < n * size /\
    forall i x, blk !! i = Some x -> x = x00.
Proof.
  intros Hbits Hover Hrun.
  assert (Hpow : 0 < 2 ^ size_bits) by (apply Z.pow_pos_nonneg; lia).
  pose proof (Z.mod_pos_bound (n * size) (2 ^ size_bits) Hpow) as Hmod.
  destruct (calloc_result size_bits A n size h)
    as [[_ Hnull] | (_ & b' & _ & Hok)].
  - rewrite Hnull in Hrun. discriminate.
  - rewrite Hok in Hrun. injection Hrun as <- <-.
    exists (replicate (Z.to_nat (CInt.to_unsigned size_bits (n * size))) x00).
    unfold CInt.to_unsigned. split; [apply lookup_insert_eq | ].
    rewrite length_replicate. split; [lia | split; [lia | ]].
    intros i x Hi. apply lookup_replicate in Hi. tauto.
Qed.

Lemma calloc_overflow_short_block_witness :
  exists blk,
    (<[1%positive := []]> (∅ : gmap positive (list byte))) !! 1%positive = Some blk /\
    Z.of_nat (List.length blk) = (2 ^ 31 * 2) mod 2 ^ 32 /\
    Z.of_nat (List.length blk) < 2 ^ 31 * 2 /\
    forall i x, blk !! i = Some x -> x = x00.
Proof.
  apply (calloc_overflow_short_block 32 (Scenario.junk_allocator []) (2 ^ 31) 2
           ∅ (<[1%positive := []]> ∅) 1).
  - lia.
  - lia.
  - vm_compute. reflexivity.
Defined.

(** ** The critical section *)

(** X19. Entering the critical section and leaving it again restores the
    state of the runtime once the section has been initialised; the
    first entry initialises it, and entering and leaving then leaves it
    initialised and not held, whatever the storage held before. *)
Theorem critical_section_enter_exit (s : Solid.state) :
  (Solid._critical_section_initialized s = true ->
   Solid.bind Solid.lf_critical_section_enter
     (fun _ => Solid.lf_critical_section_exit) s = Ok (0, s)) /\
  (Solid._critical_section_initialized s = false ->
   Solid.bind Solid.lf_critical_section_enter
     (fun _ => Solid.lf_critical_section_exit) s
   = Ok (0, Solid.set_critical_section 0
              (Solid.set_critical_section_initialized true s))).
Proof.
  destruct s as [f c cs ci i]. split; cbn [Solid._critical_section_initialized];
    intros ->; reflexivity.
Qed.

Lemma critical_section_enter_exit_witness :
  Solid.bind Solid.lf_critical_section_enter
    (fun _ => Solid.lf_critical_section_exit) (Scenario.locked_state Scenario.GHz 0)
  = Ok (0, Scenario.locked_state Scenario.GHz 0).
Proof.
  apply (proj1 (critical_section_enter_exit (Scenario.locked_state Scenario.GHz 0))).
  reflexivity.
Defined.

(** ** The tag format on non-negative instants *)

(** A value that fits the type a conversion expects is printed as it
    is, whether the conversion is signed or not. *)
Lemma render_int_fits (signed : bool) (bits z : Z) :
  0 < bits -> 0 <= z < 2 ^ (bits - 1) ->
  Printf.render_int signed bits z
  = NilZero.string_of_uint (N.to_uint (Z.to_N z)).
Proof.
  intros Hbits Hz. unfold Printf.render_int, CInt.to_signed, CInt.to_unsigned.
  assert (Hpow : 2 ^ bits = 2 * 2 ^ (bits - 1)).
  { rewrite <- Z.pow_succ_r by lia. f_equal. lia. }
  rewrite Z.mod_small by lia.
  replace (z <? 2 ^ (bits - 1)) with true by (symmetry; apply Z.ltb_lt; lia).
  destruct signed; [ | reflexivity].
  destruct z as [ | p | p]; [reflexivity | reflexivity | lia].
Qed.

Lemma render_unsigned_fits (bits z : Z) :
  0 <= z < 2 ^ bits ->
  Printf.render_int false bits z
  = NilZero.string_of_uint (N.to_uint (Z.to_N z)).
Proof.
  intros Hz. unfold Printf.render_int, CInt.to_unsigned.
  rewrite Z.mod_small by lia. reflexivity.
Qed.

(** X20. For an instant that is not negative, the [%llu] of [PRINTF_TIME]
    in [lf_solid_support.h] prints what a signed 64-bit conversion
    prints: on such tags [PRINTF_TAG] and ["(%lld, %u)"] have the same
    expansion, the two components in decimal. *)
Theorem printf_tag_nonnegative_time (t : Tag.tag_t) :
  Tag.valid t -> 0 <= Tag.time t ->
  Printf.sprintf SolidHeader.PRINTF_TAG (tag_args t)
    = Printf.sprintf "(%lld, %u)" (tag_args t) /\
  Printf.sprintf SolidHeader.PRINTF_TAG (tag_args t)
    = Some (String.append "("
             (String.append (NilZero.string_of_uint (N.to_uint (Z.to_N (Tag.time t))))
                (String.append ", "
                   (String.append
                      (NilZero.string_of_uint (N.to_uint (Z.to_N (Tag.microstep t))))
                      ")")))).
Proof.
  intros [Htime Hstep] Hpos. unfold CInt.INT64_MAX in Htime.
  unfold CInt.UINT32_MAX in Hstep.
  unfold Printf.sprintf, tag_args.
  change (Printf.parse SolidHeader.PRINTF_TAG)
    with (Some [Printf.Lit "("; Printf.ConvInt false 64; Printf.Lit ","; Printf.Lit " ";
                Printf.ConvInt false 32; Printf.Lit ")"]).
  change (Printf.parse "(%lld, %u)")
    with (Some [Printf.Lit "("; Printf.ConvInt true 64; Printf.Lit ","; Printf.Lit " ";
                Printf.ConvInt false 32; Printf.Lit ")"]).
  cbn [Printf.format fmap option_fmap option_map].
  change (64 =? 64) with true. change (32 =? 32) with true.
  cbn [fmap option_fmap option_map].
  rewrite (render_int_fits true 64 (Tag.time t)) by lia.
  rewrite (render_int_fits false 64 (Tag.time t)) by lia.
  rewrite (render_unsigned_fits 32 (Tag.microstep t)) by lia.
  split; reflexivity.
Qed.

Lemma printf_tag_nonnegative_time_witness :
  let t := {| Tag.time := 100000000; Tag.microstep := 2 |} in
  Printf.sprintf SolidHeader.PRINTF_TAG (tag_args t)
    = Printf.sprintf "(%lld, %u)" (tag_args t) /\
  Printf.sprintf SolidHeader.PRINTF_TAG (tag_args t) = Some "(100000000, 2)"%string.
Proof.
  intros t. apply (printf_tag_nonnegative_time t).
  - unfold Tag.valid. vm_compute. intuition discriminate.
  - simpl. lia.
Defined.

(** ** The busy-wait on an initialised clock *)

Lemma wait_loop_defined (P : Solid.platform) (fuel : nat) :
  forall (deadline : Z) (s : Solid.state),
    (exists s', Solid.wait_loop P fuel deadline s = Ok (tt, s')) \/
    Solid.wait_loop P fuel deadline s = OutOfFuel.
Proof.
  induction fuel as [ | fuel IH]; intros deadline s; [right; reflexivity | ].
  simpl. unfold Solid.bind, Solid.SOLID_TIMER_GetCurrentTick.
  destruct (Solid.current_tick P (Solid.instant s) >=? deadline).
  - left. eexists. reflexivity.
  - apply IH.
Qed.

(** X7. Once the clock is initialised with a tick rate between 1 Hz and
    [2 ^ 60] Hz, [wait_nsec] has no undefined behaviour for any 32-bit
    duration: the number of ticks fits [uint64_t], and the call returns
    or is still waiting when the fuel ends. *)
Theorem wait_nsec_defined
    (P : Solid.platform) (s : Solid.state) (fuel : nat) (nsec : Z) :
  Solid.clock_initialized P s ->
  0 < Solid.ticks_per_sec P <= 2 ^ 60 ->
  0 <= nsec < 2 ^ 32 ->
  (exists s', Solid.wait_nsec P fuel nsec s = Ok (tt, s')) \/
  Solid.wait_nsec P fuel nsec s = OutOfFuel.
Proof.
  intros Hinit Htps Hnsec. unfold Solid.clock_initialized in Hinit.
  destruct (ClockFacts.nsec_to_ticks_defined (Solid.ticks_per_sec P) nsec Htps Hnsec)
    as [ticks Hticks].
  unfold Solid.wait_nsec, Solid.bind, Solid.SOLID_TIMER_GetCurrentTick,
    Solid.get, Solid.lift.
  rewrite RunFacts.nsecPerTick_elapse, Hinit, Hticks. cbn [defined result_bind].
  destruct (_ >=? _).
  - left. eexists. reflexivity.
  - apply wait_loop_defined.
Qed.

Lemma wait_nsec_defined_witness :
  let P := Scenario.counting_platform 24000000 Scenario.never in
  (exists s', Solid.wait_nsec P 5 4294967295 (Scenario.locked_state 24000000 0)
              = Ok (tt, s')) \/
  Solid.wait_nsec P 5 4294967295 (Scenario.locked_state 24000000 0) = OutOfFuel.
Proof.
  intros P. apply wait_nsec_defined.
  - reflexivity.
  - simpl. lia.
  - lia.
Defined.
